(** * QuoVadis exam database: PDF export

    A shallow embedding of the PDF export path of the Streamlit
    application ([convert_google_drive_link], [wrap_text],
    [wrapped_lines], [safe_get] and [create_pdf]) together with the
    properties of the layout engine, and of the code around it: the
    column normalisation ([normalize_columns], [ensure_output_columns]),
    the search keywords, the flashcard cells ([_gn_clean],
    [_gn_normalize_newlines], [_gn_make_front_back]) and the text
    export ([format_record_to_text]).

    Conventions.
    - A Python [str] is a list of Unicode code points ([char := N]);
      iterating over a string visits code points, which is what the
      wrapper relies on.
    - Python floats are idealised as exact rationals ([Q]); cursor
      positions are therefore compared with [==].
    - The external world (reportlab's text measurer, the HTTP client,
      the image decoder, the image encoder/drawer and the session flag)
      is gathered in the record [World].
    - Exceptions are explicit: a block that can raise lives in
      [outcome] (no state) or in [M] (state kept across a raise, as in
      Python), and [try ... except Exception] is [try_except]. *)

From Stdlib Require Import String Ascii List Sorted Bool Arith.
From Stdlib Require Import ZArith NArith QArith Lia Lqa.
Import ListNotations.

Open Scope Q_scope.

(* ================================================================== *)
(** ** Python strings *)
(* ================================================================== *)

Definition char : Type := N.
Definition str : Type := list char.

(** ASCII literals of the source, as code-point lists. *)
Fixpoint py (s : string) : str :=
  match s with
  | EmptyString => []
  | String a s' => N_of_ascii a :: py s'
  end.

Fixpoint str_eqb (a b : str) : bool :=
  match a, b with
  | [], [] => true
  | x :: a', y :: b' => N.eqb x y && str_eqb a' b'
  | _, _ => false
  end.

(** [s.startswith(p)] *)
Fixpoint startswith (p s : str) : bool :=
  match p, s with
  | [], _ => true
  | _ :: _, [] => false
  | x :: p', y :: s' => N.eqb x y && startswith p' s'
  end.

(** [sub in s] *)
Fixpoint contains (sub s : str) : bool :=
  startswith sub s ||
  match s with
  | [] => false
  | _ :: s' => contains sub s'
  end.

(** [s.split(sep)] for a non-empty separator: left-to-right,
    non-overlapping occurrences.  [skip] counts the characters of a
    separator occurrence still to be dropped, [cur] is the piece being
    accumulated (reversed). *)
Fixpoint split_go (sep : str) (skip : nat) (cur : str) (s : str) : list str :=
  match s with
  | [] => [rev cur]
  | c :: s' =>
      match skip with
      | S k => split_go sep k cur s'
      | O =>
          if startswith sep s
          then rev cur :: split_go sep (length sep - 1) [] s'
          else split_go sep 0 (c :: cur) s'
      end
  end.

Definition split (s sep : str) : list str := split_go sep 0 [] s.

(** Python's [str.isspace] on one code point. *)
Definition isspace (c : char) : bool :=
  ((9 <=? c) && (c <=? 13) || (28 <=? c) && (c <=? 32) ||
   (c =? 133) || (c =? 160) || (c =? 5760) ||
   (8192 <=? c) && (c <=? 8202) ||
   (c =? 8232) || (c =? 8233) || (c =? 8239) || (c =? 8287) ||
   (c =? 12288))%N.

Fixpoint lstrip (s : str) : str :=
  match s with
  | [] => []
  | c :: s' => if isspace c then lstrip s' else s
  end.

(** [s.strip()] *)
Definition strip (s : str) : str := rev (lstrip (rev (lstrip s))).

(** Decimal rendering of the small integers used in column names. *)
Definition digit_str (i : nat) : str := [N.of_nat (48 + i)].

(* ================================================================== *)
(** ** Exceptions *)
(* ================================================================== *)

(** A Python exception, reduced to what the program observes of it:
    its message [str(e)]. *)
Inductive exn : Type :=
| Exception (msg : str).

Definition exn_str (e : exn) : str :=
  match e with Exception m => m end.

Definition ZeroDivisionError : exn := Exception (py "float division by zero").

Inductive outcome (A : Type) : Type :=
| Ret (a : A)
| Raise (e : exn).
Arguments Ret {A} a.
Arguments Raise {A} e.

Definition obind {A B} (m : outcome A) (f : A -> outcome B) : outcome B :=
  match m with
  | Ret a => f a
  | Raise e => Raise e
  end.

(** [try: body except Exception: handler], for a block without state. *)
Definition otry {A} (body : outcome A) (handler : exn -> A) : A :=
  match body with
  | Ret a => a
  | Raise e => handler e
  end.

(* ================================================================== *)
(** ** Link normalisation (source lines 251-258) *)
(* ================================================================== *)

Definition drive_domain : str := py "drive.google.com".
Definition file_d : str := py "/file/d/".
Definition slash : str := py "/".
Definition uc_prefix : str := py "https://drive.google.com/uc?export=view&id=".

(** [xs[i]], raising [IndexError] out of range. *)
Definition index {A} (xs : list A) (i : nat) : outcome A :=
  match nth_error xs i with
  | Some x => Ret x
  | None => Raise (Exception (py "list index out of range"))
  end.

Definition convert_google_drive_link (url : str) : str :=
  if contains drive_domain url && contains file_d url then
    otry
      (obind (index (split url file_d) 1) (fun piece =>
       obind (index (split piece slash) 0) (fun file_id =>
       Ret (uc_prefix ++ file_id))))
      (fun _ => url)
  else url.

(* ================================================================== *)
(** ** Rational arithmetic as Python uses it *)
(* ================================================================== *)

(** [a < b] *)
Definition Qltb (a b : Q) : bool := negb (Qle_bool b a).

(** [min(a, b)]: the first of the smallest arguments. *)
Definition pymin2 (a b : Q) : Q := if Qltb b a then b else a.

(** [min(a, b, c)] *)
Definition pymin3 (a b c : Q) : Q := pymin2 (pymin2 a b) c.

(** [a / b] on floats: raises [ZeroDivisionError] when [b] is zero. *)
Definition fdiv (a b : Q) : outcome Q :=
  if Qeq_bool b 0 then Raise ZeroDivisionError else Ret (a / b).

Definition of_N (n : N) : Q := inject_Z (Z.of_N n).
Definition of_nat (n : nat) : Q := inject_Z (Z.of_nat n).

(* ================================================================== *)
(** ** The external world *)
(* ================================================================== *)

Definition bytes : Type := list N.

(** A decoded raster image: [pil.size] and its pixel data. *)
Record PIL : Type := mkPIL {
  size : N * N;
  pixels : bytes
}.

Record World : Type := mkWorld {
  (** [reportlab.pdfbase.pdfmetrics.stringWidth(text, fontName, fontSize)] *)
  stringWidth : str -> str -> Z -> Q;
  (** the font name returned by [_setup_font()] *)
  JAPANESE_FONT : str;
  (** [requests.get(url, timeout=t).content], or the exception raised *)
  requests_get : str -> Z -> outcome bytes;
  (** [Image.open(io.BytesIO(content)).convert("RGB")], or the exception *)
  Image_open : bytes -> outcome PIL;
  (** [pil.save(img_io, format="PNG")], [ImageReader(img_io)] and
      [c.drawImage(...)]: succeed, or raise *)
  render_image : PIL -> outcome unit;
  (** [st.session_state.get("progress_on")] *)
  progress_on : bool
}.

(* ================================================================== *)
(** ** Line wrapper (source lines 260-276) *)
(* ================================================================== *)

Section Wrap.
Variable sw : str -> str -> Z -> Q.
Variable max_width : Q.
Variable font_name : str.
Variable font_size : Z.

(** The [for ch in s] loop, threading [lines] and [buf]. *)
Fixpoint wrap_loop (s : str) (lines : list str) (buf : str) : list str * str :=
  match s with
  | [] => (lines, buf)
  | ch :: s' =>
      if Qle_bool (sw (buf ++ [ch]) font_name font_size) max_width
      then wrap_loop s' lines (buf ++ [ch])
      else wrap_loop s' (lines ++ [buf]) [ch]
  end.

Definition wrap_text_of (s : str) : list str :=
  match s with
  | [] => [[]]
  | _ =>
      let '(lines, buf) := wrap_loop s [] [] in
      match buf with
      | [] => lines
      | _ => lines ++ [buf]
      end
  end.
End Wrap.

Definition wrap_text (sw : str -> str -> Z -> Q) (text : str) (max_width : Q)
    (font_name : str) (font_size : Z) : list str :=
  wrap_text_of sw max_width font_name font_size text.

Definition wrapped_lines (sw : str -> str -> Z -> Q) (prefix value : str)
    (usable_width : Q) (font : str) (size : Z) : list str :=
  wrap_text sw (prefix ++ value) usable_width font size.

(* ================================================================== *)
(** ** Rows and [safe_get] (source lines 70-85) *)
(* ================================================================== *)

(** A cell of a row: a string, or [None] for NaN / None. *)
Definition cell : Type := option str.

(** [row.to_dict()] *)
Definition row : Type := list (str * cell).

Fixpoint dict_get (r : row) (k : str) : option cell :=
  match r with
  | [] => None
  | (k', v) :: r' => if str_eqb k k' then Some v else dict_get r' k
  end.

Fixpoint safe_get (r : row) (keys : list str) : str :=
  match keys with
  | [] => []
  | k :: keys' =>
      match dict_get r k with
      | Some (Some v) =>
          match strip v with
          | [] => safe_get r keys'
          | s => s
          end
      | _ => safe_get r keys'
      end
  end.

(** Column names and labels of the source. *)
Definition k_mondaibun : str := [21839; 38988; 25991]%N.          (* 問題文 *)
Definition k_setsumon : str := [35373; 21839]%N.                  (* 設問 *)
Definition k_mondai : str := [21839; 38988]%N.                    (* 問題 *)
Definition k_honbun : str := [26412; 25991]%N.                    (* 本文 *)
Definition k_sentakushi : str := [36984; 25246; 32930]%N.         (* 選択肢 *)
Definition k_seikai : str := [27491; 35299]%N.                    (* 正解 *)
Definition k_kaitou : str := [35299; 31572]%N.                    (* 解答 *)
Definition k_kotae : str := [31572; 12360]%N.                     (* 答え *)
Definition k_kamokubunrui : str :=
  [31185; 30446; 20998; 39006]%N.                                (* 科目分類 *)
Definition k_bunrui : str := [20998; 39006]%N.                    (* 分類 *)
Definition k_kamoku : str := [31185; 30446]%N.                    (* 科目 *)
Definition k_link_url : str := [12522; 12531; 12463; 85; 82; 76]%N. (* リンクURL *)
Definition k_gazou_url : str := [30011; 20687; 85; 82; 76]%N.     (* 画像URL *)
Definition k_gazou_link : str :=
  [30011; 20687; 12522; 12531; 12463]%N.                         (* 画像リンク *)
Definition k_link : str := [12522; 12531; 12463]%N.               (* リンク *)

Definition colon_sp : str := py ": ".
(** "[画像読み込み失敗]" *)
Definition load_failed : str :=
  [91; 30011; 20687; 35501; 12415; 36796; 12415; 22833; 25943; 93]%N.
(** f"[画像読み込み失敗: {e}]" *)
Definition load_failed_with (e : exn) : str :=
  ([91; 30011; 20687; 35501; 12415; 36796; 12415; 22833; 25943]%N
   ++ colon_sp ++ exn_str e ++ py "]").

(* ================================================================== *)
(** ** Page geometry (source lines 309-316) *)
(* ================================================================== *)

(** reportlab's units and page size, as exact rationals. *)
Definition inch : Q := 72.
Definition cm : Q := inch / (254 # 100).
Definition mm : Q := cm * (1 # 10).
Definition A4 : Q * Q := (210 * mm, 297 * mm).

Definition width : Q := fst A4.
Definition height : Q := snd A4.
Definition top_margin : Q := 40.
Definition bottom_margin : Q := 60.
Definition left_margin : Q := 40.
Definition right_margin : Q := 40.
Definition usable_width : Q := width - left_margin - right_margin.
Definition page_usable_h : Q := (height - top_margin) - bottom_margin.
Definition line_h : Q := 18.

(* ================================================================== *)
(** ** Canvas, cursor and the layout monad *)
(* ================================================================== *)

(** The calls made on the reportlab canvas, in order. *)
Inductive op : Type :=
| SetFont (name : str) (sz : Z)
| ShowPage
| DrawString (x y : Q) (text : str)
| DrawImage (img : PIL) (x y w h : Q)
| Save.

(** The mutable state of [create_pdf]: the cursor [y], the canvas [c]
    and the values sent to the progress bar. *)
Record state : Type := mkState {
  st_y : Q;
  st_canvas : list op;
  st_progress : list Q
}.

(** State is kept when an exception is raised. *)
Definition M (A : Type) : Type := state -> outcome A * state.

Definition ret {A} (a : A) : M A := fun st => (Ret a, st).

Definition bind {A B} (m : M A) (f : A -> M B) : M B :=
  fun st =>
    match m st with
    | (Ret a, st') => f a st'
    | (Raise e, st') => (Raise e, st')
    end.

Definition lift {A} (o : outcome A) : M A := fun st => (o, st).

(** [try: body except Exception as e: handler e] *)
Definition try_except {A} (body : M A) (handler : exn -> M A) : M A :=
  fun st =>
    match body st with
    | (Ret a, st') => (Ret a, st')
    | (Raise e, st') => handler e st'
    end.

Notation "x <- c ;; k" := (bind c (fun x => k))
  (at level 61, c at next level, right associativity).
Notation "c ;;; k" := (bind c (fun _ => k))
  (at level 61, right associativity).

Definition get_y : M Q := fun st => (Ret (st_y st), st).

Definition set_y (v : Q) : M unit :=
  fun st => (Ret tt, mkState v (st_canvas st) (st_progress st)).

Definition emit (o : op) : M unit :=
  fun st => (Ret tt, mkState (st_y st) (st_canvas st ++ [o]) (st_progress st)).

Definition report (v : Q) : M unit :=
  fun st => (Ret tt, mkState (st_y st) (st_canvas st) (st_progress st ++ [v])).

Definition when (b : bool) (m : M unit) : M unit := if b then m else ret tt.

(* ================================================================== *)
(** ** [create_pdf] (source lines 305-427) *)
(* ================================================================== *)

Section CreatePdf.
Variable env : World.

Definition font : str := JAPANESE_FONT env.

(** [wrapped_lines(prefix, value, usable_width, JAPANESE_FONT, 12)] *)
Definition wl (prefix value : str) : list str :=
  wrapped_lines (stringWidth env) prefix value usable_width font 12.

(** [new_page()] *)
Definition new_page : M unit :=
  emit ShowPage ;;;
  emit (SetFont font 12) ;;;
  set_y (height - top_margin).

(** [draw_wrapped_lines(lines)] *)
Fixpoint draw_wrapped_lines (lines : list str) : M unit :=
  match lines with
  | [] => ret tt
  | ln :: rest =>
      y <- get_y ;;
      emit (DrawString left_margin y ln) ;;;
      set_y (y - line_h) ;;;
      draw_wrapped_lines rest
  end.

(** [min(usable_width / iw, page_usable_h / ih, 1.0)] *)
Definition image_scale (iw ih : N) : outcome Q :=
  obind (fdiv usable_width (of_N iw)) (fun a =>
  obind (fdiv page_usable_h (of_N ih)) (fun b =>
  Ret (pymin3 a b 1))).

(** Lines 355-357: fetch and decode. *)
Definition load_image (link_raw : str) : outcome PIL :=
  let image_url := convert_google_drive_link link_raw in
  obind (requests_get env image_url 5) (fun resp_content =>
  Image_open env resp_content).

(** Lines 350-365: the image is fetched once, before anything is
    drawn; the result is the decoded image (or [None]) and the
    height reserved for it. *)
Definition prefetch (link_raw : str) : option PIL * Q :=
  match link_raw with
  | [] => (None, 0)
  | _ =>
      otry
        (obind (load_image link_raw) (fun pil =>
         let '(iw, ih) := size pil in
         obind (image_scale iw ih) (fun scale =>
         let nh := of_N ih * scale in
         Ret (Some pil, nh + 20))))
        (fun _ => (None, of_nat (List.length (wl [] load_failed)) * line_h))
  end.

(** What the estimation pass hands to the drawing pass. *)
Record plan : Type := mkPlan {
  q_lines : list str;
  choice_lines_list : list (list str);
  pil : option PIL;
  link_raw : str;
  ans_lines : list str;
  cat_lines : list str;
  est_h : Q
}.

(** Lines 339-344. *)
Definition choices (r : row) : list (nat * str) :=
  flat_map
    (fun i =>
       match safe_get r [k_sentakushi ++ digit_str i] with
       | [] => []
       | v => [(i, v)]
       end)
    (seq 1 5).

(** Lines 337-379: field access, image prefetch and height estimate. *)
Definition estimate (r : row) : plan :=
  let q := safe_get r [k_mondaibun; k_setsumon; k_mondai; k_honbun] in
  let ans := safe_get r [k_seikai; k_kaitou; k_kotae] in
  let cat := safe_get r [k_kamokubunrui; k_bunrui; k_kamoku] in
  let link := safe_get r [k_link_url; k_gazou_url; k_gazou_link; k_link] in
  let '(p, img_est_h) := prefetch link in
  let ql := wl (k_mondaibun ++ colon_sp) q in
  let cls :=
    map (fun iv => wl (k_sentakushi ++ digit_str (fst iv) ++ colon_sp) (snd iv))
        (choices r) in
  let h0 := 0 + of_nat (List.length ql) * line_h in
  let h1 := fold_left (fun h ls => h + of_nat (List.length ls) * line_h) cls h0 in
  let h2 := h1 + (if Qeq_bool img_est_h 0 then 0 else img_est_h) in
  let al := wl (k_seikai ++ colon_sp) ans in
  let cl := wl (k_bunrui ++ colon_sp) cat in
  let h3 := h2 + (of_nat (List.length al) * line_h
                  + of_nat (List.length cl) * line_h + 20) in
  mkPlan ql cls p link al cl h3.

(** Lines 381-383: the page-break decision taken before the record
    is drawn. *)
Definition page_break (pl : plan) : M unit :=
  y <- get_y ;;
  when (Qltb (y - est_h pl) bottom_margin) new_page.

(** Lines 391-409: the image, refitted to the room left on the page;
    any exception falls back to an error line. *)
Definition draw_image (p : PIL) : M unit :=
  try_except
    (let '(iw, ih) := size p in
     scale <- lift (image_scale iw ih) ;;
     let nw := of_N iw * scale in
     let nh := of_N ih * scale in
     y <- get_y ;;
     when (Qltb (y - nh) bottom_margin) new_page ;;;
     y <- get_y ;;
     let remaining := y - bottom_margin in
     fit <- (if Qltb remaining nh
             then adj <- lift (fdiv remaining nh) ;; ret (nw * adj, nh * adj)
             else ret (nw, nh)) ;;
     let '(nw, nh) := fit in
     lift (render_image env p) ;;;
     emit (DrawImage p left_margin (y - nh) nw nh) ;;;
     set_y (y - (nh + 20)))
    (fun e => draw_wrapped_lines (wl [] (load_failed_with e))).

Fixpoint draw_each (lss : list (list str)) : M unit :=
  match lss with
  | [] => ret tt
  | ls :: rest => draw_wrapped_lines ls ;;; draw_each rest
  end.

(** Lines 390-412. *)
Definition draw_image_slot (pl : plan) : M unit :=
  match pil pl with
  | Some p => draw_image p
  | None =>
      match link_raw pl with
      | [] => ret tt
      | _ => draw_wrapped_lines (wl [] load_failed)
      end
  end.

(** Lines 417-420. *)
Definition trailing_padding : M unit :=
  y <- get_y ;;
  if Qltb (y - 20) bottom_margin then new_page else set_y (y - 20).

(** Lines 386-420: everything drawn for one record. *)
Definition draw_record (pl : plan) : M unit :=
  draw_wrapped_lines (q_lines pl) ;;;
  draw_each (choice_lines_list pl) ;;;
  draw_image_slot pl ;;;
  draw_wrapped_lines (ans_lines pl) ;;;
  draw_wrapped_lines (cat_lines pl) ;;;
  trailing_padding.

(** Lines 422-423. *)
Definition report_progress (total idx : Z) : M unit :=
  when (progress_on env)
    (report (pymin2 (inject_Z idx / inject_Z (Z.max total 1)) 1)).

(** One iteration of the [for idx, (_, row) in enumerate(...)] loop. *)
Definition loop_body (total idx : Z) (r : row) : M unit :=
  let pl := estimate r in
  page_break pl ;;;
  draw_record pl ;;;
  report_progress total idx.

Fixpoint layout_loop (total idx : Z) (records : list row) : M unit :=
  match records with
  | [] => ret tt
  | r :: rest => loop_body total idx r ;;; layout_loop total (idx + 1) rest
  end.

(** Lines 306-316: a fresh canvas with the font set and the cursor at
    the top of the first page. *)
Definition init_state : state :=
  mkState (height - top_margin) [SetFont font 12] [].

Definition create_pdf_run (records : list row) : outcome unit * state :=
  (layout_loop (Z.of_nat (List.length records)) 1 records ;;; emit Save)
    init_state.

(** The document returned by [create_pdf]: the canvas calls that
    reportlab serialises on [c.save()]. *)
Definition create_pdf (records : list row) : outcome (list op) :=
  match create_pdf_run records with
  | (Ret _, st) => Ret (st_canvas st)
  | (Raise e, _) => Raise e
  end.
End CreatePdf.

(* ================================================================== *)
(** ** What a document shows *)
(* ================================================================== *)

(** The visible content of a canvas, in drawing order. *)
Inductive content : Type :=
| Text (s : str)
| Picture (img : PIL).

Definition content_of (o : op) : list content :=
  match o with
  | DrawString _ _ s => [Text s]
  | DrawImage p _ _ _ _ => [Picture p]
  | _ => []
  end.

Definition contents (ops : list op) : list content := flat_map content_of ops.

(** Number of [showPage] calls. *)
Definition pages (ops : list op) : nat :=
  List.length (filter (fun o => match o with ShowPage => true | _ => false end) ops).

(** An image is drawn no larger than its pixel size. *)
Definition not_upscaled (o : op) : Prop :=
  match o with
  | DrawImage p _ _ w h => w <= of_N (fst (size p)) /\ h <= of_N (snd (size p))
  | _ => True
  end.

(** What takes the place of the image of a record, according to how
    loading and drawing it went. *)
Definition image_slot_contents (env : World) (pl : plan) : list content :=
  match pil pl with
  | Some p =>
      match render_image env p with
      | Ret _ => [Picture p]
      | Raise e => map Text (wl env [] (load_failed_with e))
      end
  | None =>
      match link_raw pl with
      | [] => []
      | _ => map Text (wl env [] load_failed)
      end
  end.

(** What one record contributes to the document. *)
Definition record_contents (env : World) (r : row) : list content :=
  let pl := estimate env r in
  map Text (q_lines pl) ++ map Text (concat (choice_lines_list pl)) ++
  image_slot_contents env pl ++
  map Text (ans_lines pl) ++ map Text (cat_lines pl).

(** The value sent to the progress bar after record [idx] of [total]. *)
Definition progress_value (total idx : Z) : Q :=
  pymin2 (inject_Z idx / inject_Z (Z.max total 1)) 1.

(* ================================================================== *)
(** ** Sample worlds and rows *)
(* ================================================================== *)

(** A measurer giving every glyph the same advance [w]. *)
Definition mono (w : Q) : str -> str -> Z -> Q :=
  fun s _ _ => w * of_nat (List.length s).

Definition cid_font : str := py "HeiseiKakuGo-W5".

(** No network: every fetch raises. *)
Definition offline : World :=
  mkWorld (mono 12) cid_font
    (fun _ _ => Raise (Exception (py "connection refused")))
    (fun _ => Raise (Exception (py "cannot identify image file")))
    (fun _ => Ret tt)
    true.

(** Every link resolves to the image [img]; drawing behaves as [draw]. *)
Definition online (img : PIL) (draw : outcome unit) : World :=
  mkWorld (mono 6) cid_font
    (fun _ _ => Ret [137; 80; 78; 71]%N)
    (fun _ => Ret img)
    (fun _ => draw)
    true.

Definition portrait : PIL := mkPIL (600, 900)%N [].
Definition thumbnail : PIL := mkPIL (200, 100)%N [].

Definition sample_row (q link : str) : row :=
  [(k_mondaibun, Some q); (k_sentakushi ++ digit_str 1, Some (py "a"));
   (k_sentakushi ++ digit_str 2, Some (py "b"));
   (k_seikai, Some (py "a")); (k_kamokubunrui, Some (py "x"));
   (k_link_url, Some link)].

Definition encoder_error : exn :=
  Exception
    (py "encoder error -2 when writing image file: " ++
     py "broken data stream while reading the decoded image buffer").

(* ================================================================== *)
(** ** More string operations *)
(* ================================================================== *)

(** [sep.join(parts)] *)
Fixpoint join (sep : str) (parts : list str) : str :=
  match parts with
  | [] => []
  | p :: rest =>
      match rest with
      | [] => p
      | _ => p ++ sep ++ join sep rest
      end
  end.

(** [s.replace(old, new)] for a non-empty [old]. *)
Definition replace (s old new : str) : str := join new (split s old).

Definition BOM : char := 65279%N.               (* U+FEFF *)
Definition IDEOGRAPHIC_SPACE : char := 12288%N. (* U+3000 *)
Definition CR : char := 13%N.
Definition LF : char := 10%N.

(** [re.sub(r"\r\n|\r", "\n", t)]: scanning from the left, a CR LF
    pair or a lone CR becomes one LF. *)
Fixpoint sub_cr_newline (t : str) : str :=
  match t with
  | [] => []
  | c :: t' =>
      if (c =? CR)%N then
        LF :: match t' with
              | [] => sub_cr_newline t'
              | d :: t'' =>
                  if (d =? LF)%N then sub_cr_newline t'' else sub_cr_newline t'
              end
      else c :: sub_cr_newline t'
  end.

(* ================================================================== *)
(** ** Search keywords (source line 108) *)
(* ================================================================== *)

(** [[kw.strip() for kw in query.split("&") if kw.strip()]] *)
Definition keywords (query : str) : list str :=
  flat_map
    (fun kw => match strip kw with
               | [] => []
               | k => [k]
               end)
    (split query (py "&")).

(* ================================================================== *)
(** ** Plain-text export (source lines 278-290) *)
(* ================================================================== *)

Definition k_gazou_Link : str := [30011; 20687; 76; 105; 110; 107]%N. (* 画像Link *)
(** "画像リンク: " *)
Definition label_gazou_link : str := k_gazou_link ++ colon_sp.
(** "（PDFに画像表示）" *)
Definition pdf_note : str :=
  [65288; 80; 68; 70; 12395; 30011; 20687; 34920; 31034; 65289]%N.

(** The list [parts] built by [format_record_to_text]. *)
Definition format_record_parts (r : row) : list str :=
  let q := safe_get r [k_mondaibun; k_setsumon; k_mondai; k_honbun] in
  let parts0 := [k_mondaibun ++ colon_sp ++ q] in
  let parts1 :=
    fold_left
      (fun parts i =>
         match safe_get r [k_sentakushi ++ digit_str i] with
         | [] => parts
         | choice => parts ++ [k_sentakushi ++ digit_str i ++ colon_sp ++ choice]
         end)
      (seq 1 5) parts0 in
  let parts2 :=
    parts1 ++ [k_seikai ++ colon_sp ++ safe_get r [k_seikai; k_kaitou; k_kotae]] in
  let parts3 :=
    parts2 ++ [k_bunrui ++ colon_sp
               ++ safe_get r [k_kamokubunrui; k_bunrui; k_kamoku]] in
  let link :=
    safe_get r [k_link_url; k_gazou_url; k_gazou_link; k_link; k_gazou_Link] in
  match link with
  | [] => parts3
  | _ => parts3 ++ [label_gazou_link ++ convert_google_drive_link link ++ pdf_note]
  end.

Definition format_record_to_text (r : row) : str :=
  join [LF] (format_record_parts r).

(* ================================================================== *)
(** ** Data frames (as far as the exports use them) *)
(* ================================================================== *)

(** A Python value found in a cell or returned by a lookup: [None],
    NaN, a string, or a Series of several cells, known by the text
    that [str] gives for it. *)
Inductive value : Type :=
| VNone
| VNaN
| VStr (s : str)
| VSeries (printed : str).

(** [str(v)] *)
Definition str_of (v : value) : str :=
  match v with
  | VNone => py "None"
  | VNaN => py "nan"
  | VStr s => s
  | VSeries printed => printed
  end.

(** A pandas data frame: its column labels and, for every row, the
    cells in column order. *)
Record DataFrame : Type := mkDataFrame {
  columns : list str;
  cells : list (list value)
}.

(** A row as [iterrows] yields it: a Series indexed by the columns. *)
Definition series : Type := list (str * value).

Definition iterrows (df : DataFrame) : list series :=
  map (fun vals => combine (columns df) vals) (cells df).

(** The cells of [row] under the label [key], in order. *)
Definition cells_under (row : series) (key : str) : list value :=
  map snd (filter (fun kv => str_eqb key (fst kv)) row).

(** [row.get(key, default)]: the default when the label is absent, the
    cell when the label occurs once, and the Series of the cells under
    it when the label is repeated.  [series_str row key] is the text
    that pandas' [str] gives for that Series; it is left open, as it
    depends on the labels, the cells, the name and the dtype of
    [row]. *)
Definition series_get (series_str : series -> str -> str) (row : series)
    (key : str) (default : value) : value :=
  match cells_under row key with
  | [] => default
  | [v] => v
  | _ => VSeries (series_str row key)
  end.

(** [enumerate(l)] *)
Definition enumerate {A} (l : list A) : list (nat * A) :=
  combine (seq 0 (List.length l)) l.

(** [c in out.columns] *)
Fixpoint has_column (cols : list str) (c : str) : bool :=
  match cols with
  | [] => false
  | k :: cols' => str_eqb c k || has_column cols' c
  end.

(** [out[c] = v] for a label [c] that is not yet a column. *)
Definition add_column (df : DataFrame) (c : str) (v : value) : DataFrame :=
  mkDataFrame (columns df ++ [c]) (map (fun vals => vals ++ [v]) (cells df)).

(** The list [need] of [ensure_output_columns]. *)
Definition need : list str :=
  [k_mondaibun] ++ map (fun i => k_sentakushi ++ digit_str i) (seq 1 5) ++
  [k_seikai; k_kamokubunrui; k_link_url].

(** Source lines 87-93. *)
Definition ensure_output_columns (df : DataFrame) : DataFrame :=
  fold_left
    (fun out c => if has_column (columns out) c then out
                  else add_column out c (VStr []))
    need df.

(* ================================================================== *)
(** ** Flashcard export (source lines 146-216) *)
(* ================================================================== *)

(** Lines 146-149. *)
Definition _gn_clean (s : value) : str :=
  match s with
  | VNone => []
  | _ => replace (strip (replace (str_of s) [BOM] [])) [IDEOGRAPHIC_SPACE] []
  end.

(** Lines 151-158. *)
Definition _gn_normalize_newlines (text : value) (newline : str) : str :=
  match text with
  | VNone => []
  | _ =>
      let t := sub_cr_newline (str_of text) in
      if str_eqb newline [CR; LF] then replace t [LF] [CR; LF] else t
  end.

(** The default [newline="\n"] on a string. *)
Definition normalize_lf (t : str) : str := _gn_normalize_newlines (VStr t) [LF].

Definition ABC : str := py "ABC".

(** Lines 160-191. *)
Definition _gn_make_front_back (series_str : series -> str -> str)
    (row : series) (numbering : str) (add_labels add_meta : bool) : str * str :=
  let get := series_get series_str row in
  let q := _gn_clean (get k_mondaibun (VStr [])) in
  let choices :=
    map (fun i => _gn_clean (get (k_sentakushi ++ digit_str i) (VStr [])))
        (seq 1 5) in
  let labels :=
    if str_eqb numbering ABC
    then [py "A"; py "B"; py "C"; py "D"; py "E"]
    else [py "1"; py "2"; py "3"; py "4"; py "5"] in
  let choice_lines :=
    flat_map
      (fun it =>
         match snd it with
         | [] => []
         | txt => [fst it ++ py ". " ++ normalize_lf txt]
         end)
      (combine labels choices) in
  let front0 := normalize_lf q in
  let front :=
    match choice_lines with
    | [] => front0
    | _ => front0 ++ [LF; LF] ++ join [LF] choice_lines
    end in
  let ans := _gn_clean (get k_seikai (VStr [])) in
  let back0 := if add_labels then k_seikai ++ colon_sp ++ ans else ans in
  let back1 :=
    if add_meta then
      let subject := _gn_clean (get k_kamokubunrui (VStr [])) in
      let link := _gn_clean (get k_link_url (VStr [])) in
      let extra :=
        join [LF] (filter (fun s => negb (str_eqb s [])) [subject; link]) in
      match extra with
      | [] => back0
      | _ => back0 ++ [LF; LF] ++ normalize_lf extra
      end
    else back0 in
  (front, normalize_lf back1).

(** Lines 205-216 of [dataframe_to_goodnotes_bytes]: the Front and Back
    cells handed to the CSV writer.  The rows of a frame differ in
    their names, so the printing of a Series cut from a row is given
    per position: [series_str i] is the one of the [i]-th row. *)
Definition goodnotes_cells (series_str : nat -> series -> str -> str)
    (df : DataFrame) (numbering : str) (add_labels add_meta : bool)
    : list (str * str) :=
  let base := ensure_output_columns df in
  map (fun ir =>
         let '(f, b) :=
           _gn_make_front_back (series_str (fst ir)) (snd ir)
             numbering add_labels add_meta in
         (normalize_lf f, normalize_lf b))
      (enumerate (iterrows base)).

(** None of the labels [keys] occurs more than once among the columns. *)
Definition unrepeated (df : DataFrame) (keys : list str) : bool :=
  forallb
    (fun k => Nat.leb (List.length (filter (str_eqb k) (columns df))) 1)
    keys.

(** A frame in which a label that the export does not read occurs
    twice. *)
Definition annotated_frame : DataFrame :=
  mkDataFrame [k_mondaibun; py "memo"; py "memo"; k_seikai]
    [[VStr (py "Q1"); VStr (py "x"); VStr (py "y"); VStr (py "a")];
     [VStr (py " Q2 "); VNaN; VStr (py "z"); VNaN]].

(** A stand-in for pandas' printing of a Series: the cells, one per
    line. *)
Definition sample_series_str (i : nat) (row : series) (key : str) : str :=
  join [LF] (map str_of (cells_under row key)).

(* ================================================================== *)
(** ** Column names (source lines 40-68) *)
(* ================================================================== *)

(** The character class of [re.sub(r"[\u3000 \t\r\n]+", "", s)]. *)
Definition blank_class (c : char) : bool :=
  ((c =? IDEOGRAPHIC_SPACE) || (c =? 32) || (c =? 9) || (c =? CR) || (c =? LF))%N.

(** [_clean] of [normalize_columns]: the byte-order mark is removed,
    then every run of characters of the class (that is, every such
    character). *)
Definition _clean (s : str) : str :=
  filter (fun c => negb (blank_class c)) (replace s [BOM] []).

Definition fw (c : N) : str := [c].

(** The dictionary [alias], in insertion order. *)
Definition alias : list (str * list str) :=
  [ (k_mondaibun, [k_setsumon; k_mondai; k_honbun]);
    (k_sentakushi ++ py "1",
       [k_sentakushi ++ fw 65313; k_sentakushi ++ py "a"; py "A"; fw 65345]);
    (k_sentakushi ++ py "2",
       [k_sentakushi ++ fw 65314; k_sentakushi ++ py "b"; py "B"; fw 65346]);
    (k_sentakushi ++ py "3",
       [k_sentakushi ++ fw 65315; k_sentakushi ++ py "c"; py "C"; fw 65347]);
    (k_sentakushi ++ py "4",
       [k_sentakushi ++ fw 65316; k_sentakushi ++ py "d"; py "D"; fw 65348]);
    (k_sentakushi ++ py "5",
       [k_sentakushi ++ fw 65317; k_sentakushi ++ py "e"; py "E"; fw 65349]);
    (k_seikai, [k_kaitou; k_kotae; py "ans"; py "answer"]);
    (k_kamokubunrui,
       [k_bunrui; k_kamoku; [12459; 12486; 12468; 12522]%N;
        [12459; 12486; 12468; 12522; 12540]%N]);   (* カテゴリ, カテゴリー *)
    (k_link_url, [k_gazou_url; k_gazou_link; k_link; k_gazou_Link]) ].

(** The first candidate that is in [colset]. *)
Fixpoint first_present (cands : list str) (colset : list str) : option str :=
  match cands with
  | [] => None
  | c :: cands' => if has_column colset c then Some c else first_present cands' colset
  end.

(** [df.rename(columns={c: canon})] on the labels. *)
Definition rename_label (cols : list str) (c canon : str) : list str :=
  map (fun k => if str_eqb k c then canon else k) cols.

(** One round of the loop over [alias.items()]: the state is the list
    of labels and the set [colset]. *)
Definition alias_step (st : list str * list str) (e : str * list str)
    : list str * list str :=
  let '(cols, colset) := st in
  if has_column colset (fst e) then st
  else
    match first_present (snd e) colset with
    | Some c => (rename_label cols c (fst e), fst e :: colset)
    | None => st
    end.

Definition normalize_labels (labels : list str) : list str :=
  let cols := map _clean labels in
  fst (fold_left alias_step alias (cols, cols)).

Definition normalize_columns (df : DataFrame) : DataFrame :=
  mkDataFrame (normalize_labels (columns df)) (cells df).

(** A canonical name with its aliases. *)
Definition names_of (e : str * list str) : list str := fst e :: snd e.

(** How a label can change: it stays, or it was an alias of an entry
    of [tbl] and became that entry's canonical name. *)
Definition renamed_by (tbl : list (str * list str)) (old new : str) : Prop :=
  new = old \/ exists e, In e tbl /\ In old (snd e) /\ new = fst e.

(* ================================================================== *)
(** ** Predicates used to state the properties *)
(* ================================================================== *)

(** A wrapped line is acceptable when it fits, or when it is one
    character that does not fit on its own. *)
Definition line_ok (sw : str -> str -> Z -> Q) (max_width : Q)
    (font_name : str) (font_size : Z) (ln : str) : Prop :=
  sw ln font_name font_size <= max_width \/
  (List.length ln = 1%nat /\ max_width < sw ln font_name font_size).

(** What the wrapping loop guarantees of the buffer it carries. *)
Definition buf_ok (sw : str -> str -> Z -> Q) (max_width : Q)
    (font_name : str) (font_size : Z) (buf : str) : Prop :=
  buf = [] \/ sw buf font_name font_size <= max_width \/
  List.length buf = 1%nat.

(** [m], started in [st], returns normally in [st'], having added the
    calls [new] to the canvas and the values [newp] to the progress
    bar. *)
Definition runs (m : M unit) (st st' : state) (new : list op)
    (newp : list Q) : Prop :=
  m st = (Ret tt, st') /\
  st_canvas st' = st_canvas st ++ new /\
  st_progress st' = st_progress st ++ newp.

(** Height of a block of lines. *)
Definition lines_h (lines : list str) : Q :=
  of_nat (List.length lines) * line_h.

(** A string that neither starts nor ends with whitespace. *)
Definition trimmed (s : str) : Prop :=
  match s with
  | [] => True
  | c :: _ => isspace c = false
  end /\
  match rev s with
  | [] => True
  | c :: _ => isspace c = false
  end.

(** The text [safe_get] sees under one key: the stripped cell, or the
    empty string when the key is missing or the cell is NaN / None. *)
Definition cell_text (r : row) (k : str) : str :=
  match dict_get r k with
  | Some (Some v) => strip v
  | _ => []
  end.

(** [m] always returns normally and every call it adds to the canvas
    satisfies [P]. *)
Definition emits (P : op -> Prop) (m : M unit) : Prop :=
  forall st, exists st' new newp, runs m st st' new newp /\ Forall P new.

(** An image is placed at the left margin, on or above the bottom
    margin, within the usable width and height, at the size given by
    the scale of the estimation pass.  The equalities are those of
    exact arithmetic; [image_covered] below keeps what rounding cannot
    disturb. *)
Definition image_placed (o : op) : Prop :=
  match o with
  | DrawImage p x y w h =>
      x = left_margin /\ bottom_margin <= y /\
      w <= usable_width /\ h <= page_usable_h /\
      exists s,
        image_scale (fst (size p)) (snd (size p)) = Ret s /\
        w = of_N (fst (size p)) * s /\ h = of_N (snd (size p)) * s
  | _ => True
  end.

(** Text is written at the left margin. *)
Definition text_at_margin (o : op) : Prop :=
  match o with
  | DrawString x _ _ => x = left_margin
  | _ => True
  end.

(** Every row of the frame has one cell per column. *)
Definition well_formed (df : DataFrame) : Prop :=
  Forall (fun vals => List.length vals = List.length (columns df)) (cells df).



(** An image is drawn at the left margin and no larger than the size
    the estimation pass computed for it. *)
Definition image_covered (o : op) : Prop :=
  match o with
  | DrawImage p x _ w h =>
      x = left_margin /\
      exists s,
        image_scale (fst (size p)) (snd (size p)) = Ret s /\
        w <= of_N (fst (size p)) * s /\ h <= of_N (snd (size p)) * s
  | _ => True
  end.

(* ================================================================== *)
(** * Properties *)
(* ================================================================== *)

(** ** Comparison and arithmetic helpers *)

Lemma Qltb_true (a b : Q) : Qltb a b = true <-> a < b.
Proof.
  unfold Qltb. rewrite negb_true_iff.
  destruct (Qle_bool b a) eqn:E.
  - apply Qle_bool_iff in E. split; [discriminate | intro H; exfalso; lra].
  - split; [intros _ | reflexivity].
    destruct (Qlt_le_dec a b) as [L | L]; [exact L |].
    apply Qle_bool_iff in L. congruence.
Qed.

Lemma Qltb_false (a b : Q) : Qltb a b = false <-> b <= a.
Proof.
  unfold Qltb. rewrite negb_false_iff. apply Qle_bool_iff.
Qed.

Lemma pymin2_le_r (a b : Q) : pymin2 a b <= b.
Proof.
  unfold pymin2. destruct (Qltb b a) eqn:E.
  - lra.
  - apply Qltb_false in E. exact E.
Qed.

Lemma pymin2_pos (a b : Q) : 0 < a -> 0 < b -> 0 < pymin2 a b.
Proof. unfold pymin2. destruct (Qltb b a); auto. Qed.

Lemma pymin2_cases (a b : Q) : pymin2 a b = a \/ pymin2 a b = b.
Proof. unfold pymin2. destruct (Qltb b a); auto. Qed.

Lemma of_nat_S (n : nat) : of_nat (S n) == of_nat n + 1.
Proof.
  unfold of_nat. rewrite Nat2Z.inj_succ, <- Z.add_1_r, inject_Z_plus. reflexivity.
Qed.

Lemma of_nat_nonneg (n : nat) : 0 <= of_nat n.
Proof.
  unfold of_nat. change 0 with (inject_Z 0). rewrite <- Zle_Qle. lia.
Qed.

Lemma of_N_pos (n : N) : n <> 0%N -> 0 < of_N n.
Proof.
  intro H. unfold of_N. change 0 with (inject_Z 0). rewrite <- Zlt_Qlt. lia.
Qed.

Lemma fdiv_ret (a b : Q) : ~ b == 0 -> fdiv a b = Ret (a / b).
Proof.
  intro H. unfold fdiv. destruct (Qeq_bool b 0) eqn:E; [| reflexivity].
  apply Qeq_bool_iff in E. contradiction.
Qed.

(** ** Link normalisation *)

Lemma split_go_nonempty (sep : str) (s : str) :
  forall skip cur, exists x rest, split_go sep skip cur s = x :: rest.
Proof.
  induction s as [| c s IH]; intros skip cur; simpl.
  - eauto.
  - destruct skip as [| k].
    + destruct (startswith sep (c :: s)); eauto.
    + apply IH.
Qed.

Lemma split_go_two (sep : str) (s : str) :
  sep <> [] -> contains sep s = true ->
  forall cur, exists x y rest, split_go sep 0 cur s = x :: y :: rest.
Proof.
  intros Hsep. induction s as [| c s IH]; intros Hc cur.
  - destruct sep; [congruence | discriminate].
  - cbn [split_go]. destruct (startswith sep (c :: s)) eqn:E.
    + destruct (split_go_nonempty sep s (List.length sep - 1) []) as (y & rest & ->).
      eauto.
    + cbn [contains] in Hc. rewrite E in Hc. simpl in Hc.
      apply IH. exact Hc.
Qed.

Lemma split_slash_head (s : str) :
  forall cur x rest,
    ~ In 47%N cur -> split_go slash 0 cur s = x :: rest -> ~ In 47%N x.
Proof.
  induction s as [| c s IH]; intros cur x rest Hcur H.
  - simpl in H. injection H as <- _. rewrite <- in_rev. exact Hcur.
  - cbn [split_go] in H. change slash with [47%N] in H.
    cbn [startswith] in H. destruct (N.eqb_spec 47 c) as [<- | Hne]; simpl in H.
    + injection H as <- _. rewrite <- in_rev. exact Hcur.
    + apply (IH (c :: cur) x rest); [| exact H].
      intros [E | Hin]; [congruence | contradiction].
Qed.

Lemma no_slash_no_file_d (s : str) : ~ In 47%N s -> contains file_d s = false.
Proof.
  induction s as [| c s IH]; intro H.
  - reflexivity.
  - cbn [contains]. rewrite IH by (intro; apply H; now right).
    replace (startswith file_d (c :: s)) with false; [reflexivity |].
    change file_d with (47%N :: py "file/d/"). cbn [startswith].
    destruct (N.eqb_spec 47 c) as [<- | _]; [| reflexivity].
    exfalso. apply H. now left.
Qed.

Lemma uc_prefix_no_file_d (fid : str) :
  ~ In 47%N fid -> contains file_d (uc_prefix ++ fid) = false.
Proof.
  intro H. pose proof (no_slash_no_file_d fid H) as E.
  cbv [uc_prefix py N_of_ascii N_of_digits app].
  cbv [file_d py N_of_ascii N_of_digits] in *.
  cbn. cbn in E. exact E.
Qed.

(** The rewritten form of a matching link. *)
Lemma convert_matching (url : str) :
  contains drive_domain url && contains file_d url = true ->
  exists fid, convert_google_drive_link url = uc_prefix ++ fid /\ ~ In 47%N fid.
Proof.
  intro H. unfold convert_google_drive_link. rewrite H.
  apply andb_true_iff in H. destruct H as [_ H].
  destruct (split_go_two file_d url ltac:(discriminate) H []) as (a & b & rest & E).
  unfold split. rewrite E. cbn [index nth_error obind].
  destruct (split_go_nonempty slash b 0 []) as (fid & rest' & E').
  rewrite E'. cbn [nth_error obind otry].
  exists fid. split; [reflexivity |].
  apply (split_slash_head b [] fid rest'); [intros [] | exact E'].
Qed.

(** C7 (link rewrite): the share link of the specification is rewritten
    to its direct-content form, a foreign URL is returned unchanged, and
    so is every URL that does not contain both "drive.google.com" and
    "/file/d/". *)
Theorem convert_google_drive_link_rewrite :
  convert_google_drive_link
    (py "https://drive.google.com/file/d/ABC123/view?usp=sharing")
  = py "https://drive.google.com/uc?export=view&id=ABC123"
  /\ convert_google_drive_link (py "https://example.com/img.png")
     = py "https://example.com/img.png"
  /\ forall url,
       contains drive_domain url && contains file_d url = false ->
       convert_google_drive_link url = url.
Proof.
  split; [reflexivity |]. split; [reflexivity |].
  intros url H. unfold convert_google_drive_link. rewrite H. reflexivity.
Qed.

(** A Drive folder link has the domain but no "/file/d/" segment. *)
Lemma convert_google_drive_link_rewrite_witness :
  contains drive_domain (py "https://drive.google.com/drive/folders/XYZ")
    && contains file_d (py "https://drive.google.com/drive/folders/XYZ") = false
  /\ convert_google_drive_link (py "https://drive.google.com/drive/folders/XYZ")
     = py "https://drive.google.com/drive/folders/XYZ".
Proof.
  split; [reflexivity |].
  apply (proj2 (proj2 convert_google_drive_link_rewrite)). reflexivity.
Defined.

(** C10 (idempotence): normalising a link twice gives the same result
    as normalising it once. *)
Theorem convert_google_drive_link_idempotent (url : str) :
  convert_google_drive_link (convert_google_drive_link url)
  = convert_google_drive_link url.
Proof.
  destruct (contains drive_domain url && contains file_d url) eqn:E.
  - destruct (convert_matching url E) as (fid & -> & Hfid).
    unfold convert_google_drive_link at 1.
    rewrite (uc_prefix_no_file_d fid Hfid), andb_false_r. reflexivity.
  - unfold convert_google_drive_link. rewrite E, E. reflexivity.
Qed.

(** ** Line wrapper *)

Section WrapFacts.
Variable sw : str -> str -> Z -> Q.
Variable max_width : Q.
Variable font_name : str.
Variable font_size : Z.

Let width_of (ln : str) : Q := sw ln font_name font_size.
Let line_ok := line_ok sw max_width font_name font_size.
Let buf_ok := buf_ok sw max_width font_name font_size.

Lemma buf_ok_line_ok (buf : str) :
  width_of [] <= max_width -> buf_ok buf -> line_ok buf.
Proof.
  intros H0 [-> | [H | H]].
  - now left.
  - now left.
  - destruct (Qlt_le_dec max_width (width_of buf)); [right | left]; auto.
Qed.

Lemma wrap_loop_concat (s : str) :
  forall lines buf lines' buf',
    wrap_loop sw max_width font_name font_size s lines buf = (lines', buf') ->
    concat lines' ++ buf' = concat lines ++ buf ++ s.
Proof.
  induction s as [| ch s IH]; intros lines buf lines' buf' H; simpl in H.
  - injection H as <- <-. now rewrite app_nil_r.
  - destruct (Qle_bool _ _); apply IH in H; rewrite H.
    + now rewrite <- app_assoc.
    + rewrite concat_app. simpl. now rewrite app_nil_r, <- app_assoc.
Qed.

Lemma wrap_loop_ok (s : str) :
  width_of [] <= max_width ->
  forall lines buf lines' buf',
    wrap_loop sw max_width font_name font_size s lines buf = (lines', buf') ->
    Forall line_ok lines -> buf_ok buf ->
    Forall line_ok lines' /\ buf_ok buf'.
Proof.
  intro H0.
  induction s as [| ch s IH]; intros lines buf lines' buf' H Hl Hb; simpl in H.
  - injection H as <- <-. auto.
  - destruct (Qle_bool _ _) eqn:E.
    + apply (IH _ _ _ _ H Hl). right; left. apply Qle_bool_iff. exact E.
    + apply (IH _ _ _ _ H).
      * apply Forall_app. split; [exact Hl |].
        constructor; [| constructor]. now apply buf_ok_line_ok.
      * right; right. reflexivity.
Qed.

Lemma wrap_loop_buf_nonempty (s : str) :
  forall lines buf lines' buf',
    wrap_loop sw max_width font_name font_size s lines buf = (lines', buf') ->
    s <> [] \/ buf <> [] -> buf' <> [].
Proof.
  induction s as [| ch s IH]; intros lines buf lines' buf' H Hne; simpl in H.
  - injection H as <- <-. destruct Hne; congruence.
  - destruct (Qle_bool _ _); apply IH in H; auto; right.
    + destruct buf; discriminate.
    + discriminate.
Qed.
End WrapFacts.

(** C4 (wrap correctness): for a measurer that gives the empty string
    width 0 and a positive maximum width, the lines returned by
    [wrap_text] concatenate to the input, and each line fits the width
    unless it is a single character wider than the width. *)
Theorem wrap_text_correct (sw : str -> str -> Z -> Q) (s : str)
    (max_width : Q) (font_name : str) (font_size : Z) :
  sw [] font_name font_size == 0 ->
  0 < max_width ->
  concat (wrap_text sw s max_width font_name font_size) = s /\
  Forall
    (fun ln =>
       sw ln font_name font_size <= max_width \/
       (List.length ln = 1%nat /\ max_width < sw ln font_name font_size))
    (wrap_text sw s max_width font_name font_size).
Proof.
  intros Hempty Hpos.
  assert (H0 : sw [] font_name font_size <= max_width) by lra.
  unfold wrap_text, wrap_text_of.
  destruct s as [| c s].
  - split; [reflexivity |]. constructor; [now left | constructor].
  - destruct (wrap_loop sw max_width font_name font_size (c :: s) [] [])
      as [lines buf] eqn:E.
    pose proof (wrap_loop_concat _ _ _ _ _ _ _ _ _ E) as Hc.
    destruct (wrap_loop_ok sw max_width font_name font_size (c :: s) H0
                _ _ _ _ E (Forall_nil _) (or_introl eq_refl)) as [Hl Hb].
    simpl in Hc.
    destruct buf as [| b buf].
    + rewrite app_nil_r in Hc. split; [exact Hc | exact Hl].
    + split.
      * rewrite concat_app. simpl. rewrite app_nil_r. exact Hc.
      * apply Forall_app. split; [exact Hl |].
        constructor; [| constructor].
        apply (buf_ok_line_ok sw max_width font_name font_size _ H0 Hb).
Qed.

(** Seven glyphs of 12 points in a column of 30 points. *)
Lemma wrap_text_correct_witness :
  concat (wrap_text (mono 12) (py "abcdefg") 30 cid_font 12) = py "abcdefg" /\
  Forall
    (fun ln =>
       mono 12 ln cid_font 12 <= 30 \/
       (List.length ln = 1%nat /\ 30 < mono 12 ln cid_font 12))
    (wrap_text (mono 12) (py "abcdefg") 30 cid_font 12).
Proof.
  apply (wrap_text_correct (mono 12) (py "abcdefg") 30 cid_font 12).
  - reflexivity.
  - reflexivity.
Defined.

(** ** The layout monad *)

Lemma runs_bind (m1 m2 : M unit) (st st1 st2 : state) n1 n2 p1 p2 :
  runs m1 st st1 n1 p1 -> runs m2 st1 st2 n2 p2 ->
  runs (m1 ;;; m2) st st2 (n1 ++ n2) (p1 ++ p2).
Proof.
  intros (E1 & C1 & P1) (E2 & C2 & P2). unfold runs, bind.
  rewrite E1, E2, C2, C1, P2, P1, !app_assoc. auto.
Qed.

Lemma runs_seq (m1 m2 : M unit) (st st1 st2 : state) n1 n2 :
  runs m1 st st1 n1 [] -> runs m2 st1 st2 n2 [] ->
  runs (m1 ;;; m2) st st2 (n1 ++ n2) [].
Proof. intros R1 R2. apply (runs_bind _ _ _ _ _ _ _ _ _ R1 R2). Qed.

Lemma runs_ret (st : state) : runs (ret tt) st st [] [].
Proof. unfold runs, ret. now rewrite !app_nil_r. Qed.

Lemma contents_app (a b : list op) : contents (a ++ b) = contents a ++ contents b.
Proof. apply flat_map_app. Qed.

Lemma pages_app (a b : list op) : pages (a ++ b) = (pages a + pages b)%nat.
Proof. unfold pages. now rewrite filter_app, length_app. Qed.

Lemma lines_h_cons (ln : str) (rest : list str) :
  lines_h (ln :: rest) == line_h + lines_h rest.
Proof. unfold lines_h. cbn [List.length]. rewrite of_nat_S. ring. Qed.

Lemma lines_h_app (a b : list str) : lines_h (a ++ b) == lines_h a + lines_h b.
Proof.
  induction a as [| x a IH]; cbn [app].
  - unfold lines_h at 2. simpl. unfold of_nat. simpl. ring.
  - rewrite !lines_h_cons, IH. ring.
Qed.

Section LayoutSteps.
Variable env : World.

Lemma new_page_runs (st : state) :
  exists st', runs (new_page env) st st' [ShowPage; SetFont (font env) 12] []
              /\ st_y st' = height - top_margin.
Proof.
  eexists. unfold runs, new_page, bind, emit, set_y. cbn.
  rewrite <- !app_assoc, app_nil_r. cbn. auto.
Qed.

Lemma draw_wrapped_lines_runs (lines : list str) :
  forall st, exists st' new,
    runs (draw_wrapped_lines lines) st st' new [] /\
    st_y st' == st_y st - lines_h lines /\
    contents new = map Text lines /\
    pages new = 0%nat /\
    Forall not_upscaled new.
Proof.
  induction lines as [| ln rest IH]; intro st.
  - exists st, []. split; [apply runs_ret |].
    unfold lines_h. cbn. unfold of_nat. cbn. repeat split; auto. ring.
  - set (st1 := mkState (st_y st - line_h)
                  (st_canvas st ++ [DrawString left_margin (st_y st) ln])
                  (st_progress st)).
    destruct (IH st1) as (st' & new & (E & C & P) & Hy & Hc & Hp & Hu).
    exists st', (DrawString left_margin (st_y st) ln :: new).
    split; [| repeat split].
    + unfold runs. cbn [draw_wrapped_lines]. unfold bind, get_y, emit, set_y.
      cbn. fold st1. rewrite E, C, P. subst st1. cbn.
      rewrite <- app_assoc. auto.
    + rewrite Hy, lines_h_cons. subst st1. cbn. ring.
    + cbn. now rewrite <- Hc.
    + exact Hp.
    + constructor; [exact I | exact Hu].
Qed.

Lemma draw_each_runs (lss : list (list str)) :
  forall st, exists st' new,
    runs (draw_each lss) st st' new [] /\
    st_y st' == st_y st - lines_h (concat lss) /\
    contents new = map Text (concat lss) /\
    pages new = 0%nat /\
    Forall not_upscaled new.
Proof.
  induction lss as [| ls rest IH]; intro st.
  - exists st, []. split; [apply runs_ret |].
    unfold lines_h. cbn. unfold of_nat. cbn. repeat split; auto. ring.
  - destruct (draw_wrapped_lines_runs ls st)
      as (st1 & n1 & R1 & Hy1 & Hc1 & Hp1 & Hu1).
    destruct (IH st1) as (st2 & n2 & R2 & Hy2 & Hc2 & Hp2 & Hu2).
    exists st2, (n1 ++ n2). split; [| repeat split].
    + cbn [draw_each]. eapply runs_seq; eassumption.
    + cbn [concat]. rewrite Hy2, Hy1, lines_h_app. ring.
    + cbn [concat]. now rewrite contents_app, Hc1, Hc2, map_app.
    + rewrite pages_app. lia.
    + apply Forall_app; auto.
Qed.

Lemma trailing_padding_runs (st : state) :
  exists st' new,
    runs (trailing_padding env) st st' new [] /\
    contents new = [] /\
    Forall not_upscaled new /\
    bottom_margin <= st_y st' /\
    (pages new = 0%nat -> st_y st' == st_y st - 20).
Proof.
  unfold trailing_padding, bind, get_y.
  destruct (Qltb (st_y st - 20) bottom_margin) eqn:E.
  - destruct (new_page_runs st) as (st' & R & Hy).
    exists st', [ShowPage; SetFont (font env) 12].
    split; [unfold runs in *; cbn beta; rewrite E; exact R |]. repeat split.
    + repeat constructor.
    + rewrite Hy. unfold height, top_margin, bottom_margin. now vm_compute.
    + cbn. discriminate.
  - pose proof (proj1 (Qltb_false _ _) E) as L.
    exists (mkState (st_y st - 20) (st_canvas st) (st_progress st)), [].
    unfold runs, set_y. cbn beta. rewrite E. cbn. rewrite !app_nil_r.
    repeat split; auto.
Qed.
End LayoutSteps.

(** ** Image geometry *)

Lemma usable_width_pos : 0 < usable_width.
Proof. reflexivity. Qed.

Lemma page_usable_h_pos : 0 < page_usable_h.
Proof. reflexivity. Qed.

Lemma top_above_bottom : bottom_margin <= height - top_margin.
Proof. now vm_compute. Qed.

Lemma image_scale_ret (iw ih : N) (s : Q) :
  image_scale iw ih = Ret s ->
  iw <> 0%N /\ ih <> 0%N /\
  s = pymin3 (usable_width / of_N iw) (page_usable_h / of_N ih) 1.
Proof.
  unfold image_scale, fdiv.
  destruct (Qeq_bool (of_N iw) 0) eqn:Ew; [discriminate |].
  destruct (Qeq_bool (of_N ih) 0) eqn:Eh; [discriminate |].
  cbn. intro H. injection H as <-.
  repeat split; intros ->; discriminate.
Qed.

Lemma Qdiv_pos (a b : Q) : 0 < a -> 0 < b -> 0 < a / b.
Proof. intros Ha Hb. apply Qlt_shift_div_l; [exact Hb | lra]. Qed.

Lemma image_scale_range (iw ih : N) (s : Q) :
  image_scale iw ih = Ret s -> 0 < s /\ s <= 1.
Proof.
  intro H. destruct (image_scale_ret _ _ _ H) as (Hw & Hh & ->).
  split.
  - unfold pymin3. apply pymin2_pos; [apply pymin2_pos | reflexivity];
      apply Qdiv_pos; auto using usable_width_pos, page_usable_h_pos, of_N_pos.
  - apply pymin2_le_r.
Qed.

Lemma scaled_dims (iw ih : N) (s : Q) :
  image_scale iw ih = Ret s ->
  0 < of_N iw * s /\ of_N iw * s <= of_N iw /\
  0 < of_N ih * s /\ of_N ih * s <= of_N ih.
Proof.
  intro H. destruct (image_scale_range _ _ _ H) as [Hs0 Hs1].
  destruct (image_scale_ret _ _ _ H) as (Hw & Hh & _).
  apply of_N_pos in Hw. apply of_N_pos in Hh.
  repeat split; nra.
Qed.

Lemma refit_dims (nw nh remaining bw bh : Q) :
  0 < nw -> nw <= bw -> 0 < nh -> nh <= bh -> remaining < nh ->
  remaining / nh < 1 /\
  nw * (remaining / nh) <= bw /\ nh * (remaining / nh) <= bh.
Proof.
  intros Hw0 Hw Hh0 Hh Hr.
  assert (A : remaining / nh < 1) by (apply Qlt_shift_div_r; lra).
  split; [exact A |]. split; nra.
Qed.

Section ImageStep.
Variable env : World.

(** The optional page break in front of an image of height [nh]. *)
Lemma break_before_image (nh : Q) (st : state) :
  exists st1 n1,
    when (Qltb (st_y st - nh) bottom_margin) (new_page env) st = (Ret tt, st1) /\
    st_canvas st1 = st_canvas st ++ n1 /\
    st_progress st1 = st_progress st /\
    contents n1 = [] /\
    Forall not_upscaled n1 /\
    (pages n1 = 0%nat -> st_y st1 = st_y st /\ bottom_margin <= st_y st - nh).
Proof.
  unfold when. destruct (Qltb (st_y st - nh) bottom_margin) eqn:E.
  - destruct (new_page_runs env st) as (st1 & (R & C & P) & Hy).
    exists st1, [ShowPage; SetFont (font env) 12].
    rewrite app_nil_r in P. repeat split; auto.
    + repeat constructor.
    + discriminate.
    + discriminate.
  - exists st, []. unfold ret. rewrite app_nil_r. repeat split; auto.
    now apply Qltb_false.
Qed.

(** Refitting to the room left never enlarges, and changes nothing
    when the image fits. *)
Lemma refit_runs (nw nh bw bh y : Q) (st : state) :
  0 < nw -> nw <= bw -> 0 < nh -> nh <= bh ->
  exists fw fh,
    (if Qltb (y - bottom_margin) nh
     then adj <- lift (fdiv (y - bottom_margin) nh) ;; ret (nw * adj, nh * adj)
     else ret (nw, nh)) st = (Ret (fw, fh), st) /\
    fw <= bw /\ fh <= bh /\
    (bottom_margin <= y - nh -> fh = nh).
Proof.
  intros Hw0 Hw1 Hh0 Hh1.
  destruct (Qltb (y - bottom_margin) nh) eqn:E.
  - apply Qltb_true in E.
    destruct (refit_dims nw nh (y - bottom_margin) bw bh) as (_ & A & B); auto.
    exists (nw * ((y - bottom_margin) / nh)), (nh * ((y - bottom_margin) / nh)).
    unfold bind, lift, ret. rewrite fdiv_ret by lra.
    repeat split; auto. intro. exfalso. lra.
  - exists nw, nh. unfold ret. repeat split; auto.
Qed.

(** The image step, for an image whose scale could be computed. *)
Lemma draw_image_runs (p : PIL) (s : Q) (st : state) :
  image_scale (fst (size p)) (snd (size p)) = Ret s ->
  exists st' new,
    runs (draw_image env p) st st' new [] /\
    contents new =
      match render_image env p with
      | Ret _ => [Picture p]
      | Raise e => map Text (wl env [] (load_failed_with e))
      end /\
    Forall not_upscaled new /\
    (pages new = 0%nat -> render_image env p = Ret tt ->
     st_y st' == st_y st - (of_N (snd (size p)) * s + 20)).
Proof.
  intro Hs.
  destruct (scaled_dims _ _ _ Hs) as (Hw0 & Hw1 & Hh0 & Hh1).
  unfold draw_image, try_except.
  destruct (size p) as [iw ih] eqn:Esz. cbn [fst snd] in *.
  unfold bind at 1. unfold lift at 1. rewrite Hs.
  set (nw := of_N iw * s) in *. set (nh := of_N ih * s) in *.
  unfold bind at 1. unfold get_y at 1. unfold bind at 1.
  destruct (break_before_image nh st) as (st1 & n1 & Ew & C1 & P1 & Hc1 & Hu1 & Hp1).
  unfold runs. cbn beta. rewrite Ew.
  unfold bind at 1. unfold get_y at 1. unfold bind at 1.
  destruct (refit_runs nw nh (of_N iw) (of_N ih) (st_y st1) st1)
    as (fw & fh & Ef & Hfw & Hfh & Hsame); auto.
  rewrite Ef. unfold bind at 1. unfold lift at 1.
  destruct (render_image env p) as [[] | e] eqn:Er.
  - unfold bind, emit, set_y. cbn.
    eexists. exists (n1 ++ [DrawImage p left_margin (st_y st1 - fh) fw fh]).
    split; [split; [reflexivity |] |]; cbn.
    + rewrite C1, P1, app_nil_r, app_assoc. auto.
    + repeat split.
      * rewrite contents_app, Hc1. reflexivity.
      * apply Forall_app. split; [exact Hu1 |].
        constructor; [| constructor]. cbn. rewrite Esz. cbn. auto.
      * rewrite pages_app. intros Hp _.
        destruct Hp1 as [Ey Hroom]; [lia |].
        rewrite Hsame by (rewrite Ey; exact Hroom). rewrite Ey. reflexivity.
  - destruct (draw_wrapped_lines_runs (wl env [] (load_failed_with e)) st1)
      as (st' & n2 & (E2 & C2 & P2) & _ & Hc2 & _ & Hu2).
    exists st', (n1 ++ n2). rewrite E2.
    split; [split; [reflexivity |] |].
    + rewrite C2, P2, C1, P1, app_assoc. auto.
    + repeat split.
      * rewrite contents_app, Hc1, Hc2. reflexivity.
      * apply Forall_app; auto.
      * intros _ H. discriminate.
Qed.
End ImageStep.

(** ** The estimation pass *)

Section Estimation.
Variable env : World.

(** The three ways the prefetch can end. *)
Lemma prefetch_cases (link : str) :
  (link = [] /\ prefetch env link = (None, 0)) \/
  (link <> [] /\
   prefetch env link = (None, lines_h (wl env [] load_failed))) \/
  (link <> [] /\ exists p s,
     image_scale (fst (size p)) (snd (size p)) = Ret s /\
     prefetch env link = (Some p, of_N (snd (size p)) * s + 20)).
Proof.
  destruct link as [| c link]; [left; auto | right].
  unfold prefetch, load_image.
  destruct (requests_get env _ 5) as [content | e]; cbn [obind otry];
    [| left; split; [discriminate | reflexivity]].
  destruct (Image_open env content) as [p | e]; cbn [obind otry];
    [| left; split; [discriminate | reflexivity]].
  destruct (size p) as [iw ih] eqn:Esz.
  destruct (image_scale iw ih) as [s | e] eqn:Es; cbn [obind otry].
  - right. split; [discriminate |]. exists p, s. rewrite Esz. cbn. auto.
  - left. split; [discriminate | reflexivity].
Qed.

Lemma fold_lines_h (cls : list (list str)) :
  forall h0,
    fold_left (fun h ls => h + of_nat (List.length ls) * line_h) cls h0
    == h0 + lines_h (concat cls).
Proof.
  induction cls as [| ls cls IH]; intro h0; cbn [fold_left concat].
  - unfold lines_h. cbn. unfold of_nat. cbn. ring.
  - rewrite IH, lines_h_app. unfold lines_h. ring.
Qed.

(** The plan in terms of its parts. *)
Lemma estimate_plan (r : row) :
  let pl := estimate env r in
  pil pl = fst (prefetch env (link_raw pl)) /\
  est_h pl ==
    lines_h (q_lines pl) + lines_h (concat (choice_lines_list pl)) +
    snd (prefetch env (link_raw pl)) +
    lines_h (ans_lines pl) + lines_h (cat_lines pl) + 20.
Proof.
  unfold estimate.
  destruct (prefetch env _) as [p h] eqn:E. cbn [pil link_raw est_h q_lines
    choice_lines_list ans_lines cat_lines].
  rewrite E. cbn [fst snd]. split; [reflexivity |].
  rewrite fold_lines_h.
  assert (Hh : (if Qeq_bool h 0 then 0 else h) == h).
  { destruct (Qeq_bool h 0) eqn:Eh; [| reflexivity].
    apply Qeq_bool_iff in Eh. now rewrite Eh. }
  rewrite Hh. unfold lines_h. ring.
Qed.
End Estimation.

(** ** One record *)

Section RecordSteps.
Variable env : World.

Lemma draw_image_slot_runs (r : row) (st : state) :
  let pl := estimate env r in
  exists st' new,
    runs (draw_image_slot env pl) st st' new [] /\
    contents new = image_slot_contents env pl /\
    Forall not_upscaled new /\
    (pages new = 0%nat ->
     (forall p, pil pl = Some p -> render_image env p = Ret tt) ->
     st_y st' == st_y st - snd (prefetch env (link_raw pl))).
Proof.
  intro pl. destruct (estimate_plan env r) as [Hpil _]. fold pl in Hpil.
  unfold draw_image_slot, image_slot_contents. rewrite Hpil.
  destruct (prefetch_cases env (link_raw pl))
    as [[El Ep] | [[El Ep] | [El (p & s & Hs & Ep)]]]; rewrite Ep; cbn [fst snd].
  - rewrite El. exists st, []. split; [apply runs_ret |].
    repeat split; auto. intros _ _. ring.
  - destruct (link_raw pl) as [| c l] eqn:E; [congruence |].
    destruct (draw_wrapped_lines_runs (wl env [] load_failed) st)
      as (st' & new & R & Hy & Hc & Hp & Hu).
    exists st', new. repeat split; auto. apply R. apply R. apply R.
  - destruct (draw_image_runs env p s st Hs) as (st' & new & R & Hc & Hu & Hy).
    exists st', new. split; [exact R |]. split; [| split; [exact Hu |]].
    + rewrite Hc. destruct (render_image env p); reflexivity.
    + intros Hp Hr. apply Hy; [exact Hp |]. apply Hr. reflexivity.
Qed.

(** Everything drawn for one record. *)
Lemma draw_record_runs (r : row) (st : state) :
  let pl := estimate env r in
  exists st' new,
    runs (draw_record env pl) st st' new [] /\
    contents new = record_contents env r /\
    Forall not_upscaled new /\
    bottom_margin <= st_y st' /\
    (pages new = 0%nat ->
     (forall p, pil pl = Some p -> render_image env p = Ret tt) ->
     st_y st' == st_y st - est_h pl).
Proof.
  intro pl. unfold draw_record.
  destruct (draw_wrapped_lines_runs (q_lines pl) st)
    as (s1 & n1 & R1 & Y1 & C1 & P1 & U1).
  destruct (draw_each_runs (choice_lines_list pl) s1)
    as (s2 & n2 & R2 & Y2 & C2 & P2 & U2).
  destruct (draw_image_slot_runs r s2) as (s3 & n3 & R3 & C3 & U3 & Y3).
  fold pl in R3, C3, Y3.
  destruct (draw_wrapped_lines_runs (ans_lines pl) s3)
    as (s4 & n4 & R4 & Y4 & C4 & P4 & U4).
  destruct (draw_wrapped_lines_runs (cat_lines pl) s4)
    as (s5 & n5 & R5 & Y5 & C5 & P5 & U5).
  destruct (trailing_padding_runs env s5) as (s6 & n6 & R6 & C6 & U6 & B6 & Y6).
  exists s6, (n1 ++ n2 ++ n3 ++ n4 ++ n5 ++ n6).
  split; [| split; [| split; [| split]]].
  - repeat (eapply runs_seq; [eassumption |]). exact R6.
  - rewrite !contents_app, C1, C2, C3, C4, C5, C6, app_nil_r.
    unfold record_contents. fold pl. reflexivity.
  - repeat (apply Forall_app; split; auto).
  - exact B6.
  - rewrite !pages_app. intros Hp Hr.
    destruct (estimate_plan env r) as [_ He]. fold pl in He.
    rewrite He, Y6, Y5, Y4, Y3, Y2, Y1 by (auto; lia). ring.
Qed.

(** The page-break decision in front of a record. *)
Lemma page_break_runs (pl : plan) (st : state) :
  exists st' new,
    runs (page_break env pl) st st' new [] /\
    contents new = [] /\
    Forall not_upscaled new /\
    ((st_y st - est_h pl < bottom_margin /\
      new = [ShowPage; SetFont (font env) 12] /\
      st_y st' = height - top_margin) \/
     (bottom_margin <= st_y st - est_h pl /\ st' = st /\ new = [])).
Proof.
  unfold page_break, bind, get_y, when.
  destruct (Qltb (st_y st - est_h pl) bottom_margin) eqn:E.
  - destruct (new_page_runs env st) as (st' & R & Hy).
    exists st', [ShowPage; SetFont (font env) 12].
    split; [unfold runs in *; cbn beta; rewrite E; exact R |].
    repeat split; [repeat constructor |].
    left. apply Qltb_true in E. auto.
  - exists st, []. split; [unfold runs; cbn beta; rewrite E; apply runs_ret |].
    repeat split; auto. right. apply Qltb_false in E. auto.
Qed.

Lemma report_progress_runs (total idx : Z) (st : state) :
  exists st',
    runs (report_progress env total idx) st st' []
      (if progress_on env then [progress_value total idx] else []) /\
    st_y st' = st_y st.
Proof.
  unfold report_progress, when, progress_value.
  destruct (progress_on env).
  - eexists. unfold runs, report. cbn. rewrite app_nil_r. auto.
  - exists st. split; [apply runs_ret | reflexivity].
Qed.

(** One iteration of the loop. *)
Lemma loop_body_runs (total idx : Z) (r : row) (st : state) :
  exists st' new,
    runs (loop_body env total idx r) st st' new
      (if progress_on env then [progress_value total idx] else []) /\
    contents new = record_contents env r /\
    Forall not_upscaled new /\
    bottom_margin <= st_y st'.
Proof.
  unfold loop_body.
  destruct (page_break_runs (estimate env r) st) as (s1 & n1 & R1 & C1 & U1 & _).
  destruct (draw_record_runs r s1) as (s2 & n2 & R2 & C2 & U2 & B2 & _).
  destruct (report_progress_runs total idx s2) as (s3 & R3 & Y3).
  exists s3, (n1 ++ n2 ++ []).
  split; [| split; [| split]].
  - apply (runs_bind _ _ _ _ _ _ _ [] _ R1).
    apply (runs_bind _ _ _ _ _ _ _ [] _ R2). exact R3.
  - rewrite !contents_app, C1, C2, app_nil_r. reflexivity.
  - repeat (apply Forall_app; split; auto).
  - rewrite Y3. exact B2.
Qed.

(** The whole loop. *)
Lemma layout_loop_runs (total : Z) (records : list row) :
  forall idx st, exists st' new,
    runs (layout_loop env total idx records) st st' new
      (if progress_on env
       then map (fun k => progress_value total (idx + Z.of_nat k))
                (seq 0 (List.length records))
       else []) /\
    contents new = flat_map (record_contents env) records /\
    Forall not_upscaled new /\
    (bottom_margin <= st_y st -> bottom_margin <= st_y st').
Proof.
  induction records as [| r rest IH]; intros idx st.
  - exists st, []. cbn. split.
    + destruct (progress_on env); apply runs_ret.
    + repeat split; auto.
  - destruct (loop_body_runs total idx r st) as (s1 & n1 & R1 & C1 & U1 & B1).
    destruct (IH (idx + 1)%Z s1) as (s2 & n2 & R2 & C2 & U2 & B2).
    exists s2, (n1 ++ n2). split; [| split; [| split]].
    + cbn [layout_loop List.length seq map].
      pose proof (runs_bind _ _ _ _ _ _ _ _ _ R1 R2) as R.
      destruct (progress_on env); [| exact R].
      cbn [app] in R. rewrite Z.add_0_r.
      rewrite <- seq_shift, map_map.
      erewrite map_ext; [exact R |].
      intro k. cbn beta. f_equal. lia.
    + rewrite contents_app, C1, C2. reflexivity.
    + apply Forall_app; auto.
    + auto.
Qed.
End RecordSteps.

(** ** The whole document *)

Lemma create_pdf_run_spec (env : World) (records : list row) :
  exists st new,
    create_pdf_run env records = (Ret tt, st) /\
    st_canvas st = SetFont (font env) 12 :: new ++ [Save] /\
    st_progress st =
      (if progress_on env
       then map (fun k => progress_value (Z.of_nat (List.length records))
                            (1 + Z.of_nat k))
                (seq 0 (List.length records))
       else []) /\
    contents new = flat_map (record_contents env) records /\
    Forall not_upscaled new.
Proof.
  destruct (layout_loop_runs env (Z.of_nat (List.length records)) records 1
              (init_state env)) as (s1 & new & (E & C & P) & Hc & Hu & _).
  eexists. exists new. unfold create_pdf_run, bind. rewrite E.
  unfold emit. cbn. rewrite C, P. cbn. auto.
Qed.

Lemma bind_returns {A B} (m : M A) (k : M B) (a : A) (st st1 : state) :
  m st = (Ret a, st1) -> (m ;;; k) st = k st1.
Proof. intro E. unfold bind. now rewrite E. Qed.

(** The loop over [pre ++ r :: post] reaches [r] in the state left by
    [pre], and goes on from the page-break decision taken for [r]. *)
Lemma layout_loop_reaches (env : World) (total : Z) (pre : list row) (r : row)
    (post : list row) :
  forall idx st,
    layout_loop env total idx (pre ++ r :: post) st =
    (draw_record env (estimate env r) ;;;
     report_progress env total (idx + Z.of_nat (List.length pre)) ;;;
     layout_loop env total (idx + Z.of_nat (List.length pre) + 1) post)
      (snd (page_break env (estimate env r)
              (snd (layout_loop env total idx pre st)))).
Proof.
  induction pre as [| r0 pre IH]; intros idx st.
  - cbn [app List.length layout_loop Z.of_nat ret snd]. rewrite Z.add_0_r.
    destruct (page_break_runs env (estimate env r) st) as (s1 & n1 & (E & _) & _).
    unfold loop_body. rewrite E. cbn [snd].
    unfold bind at 1 2. rewrite E.
    unfold bind. destruct (draw_record env (estimate env r) s1) as [[[] | e] s2];
      [| reflexivity].
    destruct (report_progress env total idx s2) as [[[] | e] s3]; reflexivity.
  - cbn [app List.length layout_loop].
    destruct (loop_body_runs env total idx r0 st) as (s1 & n1 & (E & _) & _).
    rewrite !(bind_returns _ _ _ _ _ E). rewrite IH.
    replace (idx + 1 + Z.of_nat (List.length pre))%Z
      with (idx + Z.of_nat (S (List.length pre)))%Z by lia.
    reflexivity.
Qed.

(** ** Page breaks *)

(** C1 (page-break invariant, as the code has it): when [create_pdf]
    reaches a record [r] after the records [pre], the question field
    starts at a cursor [y] with [bottom_margin <= y]; the whole
    estimated height fits below it ([bottom_margin <= y - est_h])
    unless the record is taller than a page, in which case it starts at
    the top of a fresh page; and if the current page lacks the room, a
    new page is started before anything of the record is drawn. *)
Theorem page_break_before_question (env : World) (pre : list row) (r : row)
    (post : list row) :
  let records := pre ++ r :: post in
  let total := Z.of_nat (List.length records) in
  let idx := (1 + Z.of_nat (List.length pre))%Z in
  let pl := estimate env r in
  let st0 := snd (layout_loop env total 1 pre (init_state env)) in
  let st1 := snd (page_break env pl st0) in
  create_pdf_run env records =
    (((draw_record env pl ;;; report_progress env total idx ;;;
       layout_loop env total (idx + 1) post) ;;; emit Save) st1) /\
  bottom_margin <= st_y st1 /\
  (bottom_margin <= st_y st1 - est_h pl \/
   (page_usable_h < est_h pl /\ st_y st1 = height - top_margin)) /\
  (st_y st0 - est_h pl < bottom_margin ->
   st_canvas st1 = st_canvas st0 ++ [ShowPage; SetFont (font env) 12] /\
   st_y st1 = height - top_margin) /\
  (bottom_margin <= st_y st0 - est_h pl -> st1 = st0).
Proof.
  intros records total idx pl st0 st1.
  assert (B0 : bottom_margin <= st_y st0).
  { destruct (layout_loop_runs env total pre 1 (init_state env))
      as (s & n & (E & _) & _ & _ & B).
    subst st0. rewrite E. apply B. apply top_above_bottom. }
  destruct (page_break_runs env pl st0) as (s1 & n1 & (E & C & _) & _ & _ & Hcase).
  assert (Es : st1 = s1) by (subst st1; now rewrite E).
  split; [| split; [| split; [| split]]].
  - unfold create_pdf_run. unfold bind at 1. subst records.
    rewrite layout_loop_reaches. reflexivity.
  - rewrite Es. destruct Hcase as [(_ & _ & ->) | (_ & -> & _)];
      [apply top_above_bottom | exact B0].
  - rewrite Es. destruct Hcase as [(L & _ & Hy) | (L & -> & _)].
    + rewrite Hy.
      destruct (Qlt_le_dec page_usable_h (est_h pl)) as [Hbig | Hfit];
        [right; auto | left].
      unfold page_usable_h in Hfit. lra.
    + now left.
  - intro L. rewrite Es. destruct Hcase as [(_ & -> & Hy) | (L' & _ & _)].
    + split; [exact C | exact Hy].
    + exfalso. lra.
  - intro L. rewrite Es. destruct Hcase as [(L' & _ & _) | (_ & -> & _)].
    + exfalso. lra.
    + reflexivity.
Qed.

(** The second of two small records stays on the first page. *)
Lemma page_break_before_question_witness :
  let env := online thumbnail (Ret tt) in
  let r := sample_row (py "Q1") (py "https://example.com/a.png") in
  let pl := estimate env r in
  let st0 := snd (layout_loop env 2 1 [r] (init_state env)) in
  let st1 := snd (page_break env pl st0) in
  bottom_margin <= st_y st0 - est_h pl /\ st1 = st0.
Proof.
  intros env r pl st0 st1.
  assert (L : bottom_margin <= st_y st0 - est_h pl) by now vm_compute.
  split; [exact L |].
  exact (proj2 (proj2 (proj2 (proj2
           (page_break_before_question env [r] r [])))) L).
Defined.

(** C1, as stated, fails: a record with a portrait image of 600 x 900
    pixels is estimated taller than the usable page height, so even on
    the fresh page started for it the question begins with
    [y - est_h < bottom_margin]. *)
Lemma tall_record_starts_without_room :
  let env := online portrait (Ret tt) in
  let r := sample_row (py "Q1") (py "https://example.com/a.png") in
  let pl := estimate env r in
  let st0 := snd (layout_loop env 1 1 [] (init_state env)) in
  let st1 := snd (page_break env pl st0) in
  ~ bottom_margin <= st_y st1 - est_h pl.
Proof.
  intros env r pl st0 st1. apply Qlt_not_le. now vm_compute.
Qed.

(** ** Estimate and drawing agree *)







(** ** No upscaling *)

(** C6 (no upscale): the scale factor is
    [min(usable_width / iw, page_usable_h / ih, 1.0)], positive and at
    most 1; the draw-time adjustment [remaining / nh], used only when
    [nh > remaining], is below 1; and every image on the canvas is drawn
    no larger than its pixel size. *)
Theorem images_never_upscaled (env : World) (records : list row) :
  (forall iw ih s,
     image_scale iw ih = Ret s ->
     s = pymin3 (usable_width / of_N iw) (page_usable_h / of_N ih) 1 /\
     0 < s /\ s <= 1) /\
  (forall iw ih s remaining,
     image_scale iw ih = Ret s ->
     Qltb remaining (of_N ih * s) = true ->
     remaining / (of_N ih * s) < 1) /\
  (exists doc,
     create_pdf env records = Ret doc /\ Forall not_upscaled doc).
Proof.
  split; [| split].
  - intros iw ih s H. destruct (image_scale_ret _ _ _ H) as (_ & _ & E).
    destruct (image_scale_range _ _ _ H). auto.
  - intros iw ih s remaining H L. apply Qltb_true in L.
    destruct (scaled_dims _ _ _ H) as (Hw0 & Hw1 & Hh0 & Hh1).
    apply (refit_dims _ _ remaining _ _ Hw0 Hw1 Hh0 Hh1 L).
  - destruct (create_pdf_run_spec env records) as (st & new & E & C & _ & _ & U).
    exists (st_canvas st). unfold create_pdf. rewrite E. split; [reflexivity |].
    rewrite C. constructor; [exact I |].
    apply Forall_app. split; [exact U | repeat constructor].
Qed.

(** A 600 x 900 image with 100 points of room left. *)
Lemma images_never_upscaled_witness :
  let s := pymin3 (usable_width / of_N 600) (page_usable_h / of_N 900) 1 in
  image_scale 600 900 = Ret s /\
  Qltb 100 (of_N 900 * s) = true /\
  100 / (of_N 900 * s) < 1.
Proof.
  intro s.
  assert (E : image_scale 600 900 = Ret s) by reflexivity.
  assert (L : Qltb 100 (of_N 900 * s) = true) by now vm_compute.
  split; [exact E |]. split; [exact L |].
  exact (proj1 (proj2 (images_never_upscaled (online portrait (Ret tt)) []))
           600%N 900%N s 100 E L).
Defined.

(** ** Image errors *)

Lemma wrap_text_nonempty (sw : str -> str -> Z -> Q) (s : str) (max_width : Q)
    (font_name : str) (font_size : Z) :
  wrap_text sw s max_width font_name font_size <> [].
Proof.
  unfold wrap_text, wrap_text_of. destruct s as [| c s]; [discriminate |].
  destruct (wrap_loop sw max_width font_name font_size (c :: s) [] [])
    as [lines buf] eqn:E.
  apply wrap_loop_buf_nonempty in E; [| left; discriminate].
  destruct buf; [congruence |]. destruct lines; discriminate.
Qed.

Lemma wrap_loop_fits (sw : str -> str -> Z -> Q) (max_width : Q)
    (font_name : str) (font_size : Z) (s : str) :
  forall lines buf,
    (forall k, (1 <= k <= List.length s)%nat ->
               sw (buf ++ firstn k s) font_name font_size <= max_width) ->
    wrap_loop sw max_width font_name font_size s lines buf = (lines, buf ++ s).
Proof.
  induction s as [| ch s IH]; intros lines buf H; cbn [wrap_loop].
  - now rewrite app_nil_r.
  - pose proof (H 1%nat ltac:(cbn; lia)) as H1. cbn [firstn] in H1.
    apply Qle_bool_iff in H1. rewrite H1.
    rewrite IH; [now rewrite <- app_assoc |].
    intros k Hk. rewrite <- app_assoc. apply (H (S k)). cbn. lia.
Qed.

(** A text all of whose prefixes fit is returned as one line. *)
Lemma wrap_text_fits (sw : str -> str -> Z -> Q) (s : str) (max_width : Q)
    (font_name : str) (font_size : Z) :
  s <> [] ->
  (forall k, (1 <= k <= List.length s)%nat ->
             sw (firstn k s) font_name font_size <= max_width) ->
  wrap_text sw s max_width font_name font_size = [s].
Proof.
  intros Hs H. unfold wrap_text, wrap_text_of.
  rewrite (wrap_loop_fits sw max_width font_name font_size s [] []) by exact H.
  destruct s; [congruence | reflexivity].
Qed.

Lemma prefetch_load_error (env : World) (link : str) (e : exn) :
  load_image env link = Raise e -> fst (prefetch env link) = None.
Proof.
  intro H. unfold prefetch. destruct link; [reflexivity |].
  rewrite H. reflexivity.
Qed.

(** C3 (per-record image-error isolation, as the code has it):
    [create_pdf] always returns a document; the document shows, record
    after record, the question, the choices, the image slot, the answer
    and the category; a record whose image cannot be fetched or decoded
    shows the wrapped fallback message in the image slot, and a record
    whose image raises [e] at draw time shows the wrapped fallback
    message naming [e]; either fallback is at least one line, and
    exactly one line when every prefix of the message fits the usable
    width. *)
Theorem image_errors_stay_in_record (env : World) (records : list row) :
  (exists doc,
     create_pdf env records = Ret doc /\
     contents doc = flat_map (record_contents env) records) /\
  (forall r e,
     link_raw (estimate env r) <> [] ->
     load_image env (link_raw (estimate env r)) = Raise e ->
     image_slot_contents env (estimate env r)
     = map Text (wl env [] load_failed)) /\
  (forall r p e,
     pil (estimate env r) = Some p ->
     render_image env p = Raise e ->
     image_slot_contents env (estimate env r)
     = map Text (wl env [] (load_failed_with e))) /\
  wl env [] load_failed <> [] /\
  (forall e, wl env [] (load_failed_with e) <> []) /\
  (forall msg,
     msg <> [] ->
     (forall k, (1 <= k <= List.length msg)%nat ->
                stringWidth env (firstn k msg) (font env) 12 <= usable_width) ->
     wl env [] msg = [msg]).
Proof.
  split; [| split; [| split; [| split; [| split]]]].
  - destruct (create_pdf_run_spec env records) as (st & new & E & C & _ & Hc & _).
    exists (st_canvas st). unfold create_pdf. rewrite E. split; [reflexivity |].
    rewrite C. change (SetFont (font env) 12 :: new ++ [Save])
      with ([SetFont (font env) 12] ++ new ++ [Save]).
    rewrite !contents_app, Hc. cbn. now rewrite app_nil_r.
  - intros r e Hl He. unfold image_slot_contents.
    destruct (estimate_plan env r) as [-> _].
    rewrite (prefetch_load_error _ _ _ He).
    destruct (link_raw (estimate env r)); [congruence | reflexivity].
  - intros r p e Hp Hr. unfold image_slot_contents. now rewrite Hp, Hr.
  - apply wrap_text_nonempty.
  - intro e. apply wrap_text_nonempty.
  - intros msg Hm Hfit. apply wrap_text_fits; assumption.
Qed.

(** Without network the image slot shows the fallback message. *)
Lemma image_errors_stay_in_record_witness :
  let r := sample_row (py "Q1") (py "https://example.com/a.png") in
  link_raw (estimate offline r) <> [] /\
  load_image offline (link_raw (estimate offline r))
  = Raise (Exception (py "connection refused")) /\
  image_slot_contents offline (estimate offline r)
  = map Text (wl offline [] load_failed).
Proof.
  intro r.
  assert (Hl : link_raw (estimate offline r) <> []) by (vm_compute; discriminate).
  assert (He : load_image offline (link_raw (estimate offline r))
               = Raise (Exception (py "connection refused"))) by reflexivity.
  split; [exact Hl |]. split; [exact He |].
  exact (proj1 (proj2 (image_errors_stay_in_record offline [r])) r _ Hl He).
Defined.

(** C3, as stated, fails on "one-line": when drawing the image raises an
    exception with a long message, the fallback message is wrapped over
    two lines. *)
Lemma draw_error_fallback_is_two_lines :
  let env := online thumbnail (Raise encoder_error) in
  let r := sample_row (py "Q1") (py "https://example.com/a.png") in
  exists doc l1 l2,
    create_pdf env [r] = Ret doc /\
    contents doc =
      map Text (q_lines (estimate env r)) ++
      map Text (concat (choice_lines_list (estimate env r))) ++
      [Text l1; Text l2] ++
      map Text (ans_lines (estimate env r)) ++
      map Text (cat_lines (estimate env r)) /\
    l1 ++ l2 = load_failed_with encoder_error /\
    l1 <> [] /\ l2 <> [].
Proof.
  intros env r. vm_compute.
  eexists. eexists. eexists.
  split; [reflexivity |]. split; [reflexivity |].
  split; [reflexivity |]. split; discriminate.
Qed.

(** ** Progress *)

Lemma pymin2_mono (a b : Q) : a <= b -> pymin2 a 1 <= pymin2 b 1.
Proof.
  intro H. unfold pymin2.
  destruct (Qltb 1 a) eqn:Ea, (Qltb 1 b) eqn:Eb;
    try apply Qltb_true in Ea; try apply Qltb_true in Eb;
    try apply Qltb_false in Ea; try apply Qltb_false in Eb; lra.
Qed.

Lemma total_pos (total : Z) : 0 < inject_Z (Z.max total 1).
Proof. change 0 with (inject_Z 0). rewrite <- Zlt_Qlt. lia. Qed.

Lemma progress_value_mono (total i j : Z) :
  (i <= j)%Z -> progress_value total i <= progress_value total j.
Proof.
  intro H. unfold progress_value. apply pymin2_mono.
  pose proof (total_pos total) as Hp.
  apply Qle_shift_div_l; [exact Hp |].
  rewrite Zle_Qle in H.
  setoid_replace (inject_Z i / inject_Z (Z.max total 1) * inject_Z (Z.max total 1))
    with (inject_Z i) by (field; lra).
  exact H.
Qed.

Lemma progress_value_range (total i : Z) :
  (0 <= i)%Z -> 0 <= progress_value total i /\ progress_value total i <= 1.
Proof.
  intro H. split; [| apply pymin2_le_r].
  unfold progress_value.
  assert (A : 0 <= inject_Z i / inject_Z (Z.max total 1)).
  { apply Qle_shift_div_l; [apply total_pos |].
    rewrite Zle_Qle in H. change (inject_Z 0) with 0 in H. lra. }
  destruct (pymin2_cases (inject_Z i / inject_Z (Z.max total 1)) 1) as [-> | ->];
    [exact A | lra].
Qed.

Lemma progress_value_last (n : Z) : (0 < n)%Z -> progress_value n n == 1.
Proof.
  intro H. unfold progress_value. rewrite Z.max_l by lia.
  assert (E : inject_Z n / inject_Z n == 1).
  { field. rewrite Zlt_Qlt in H. change (inject_Z 0) with 0 in H. lra. }
  unfold pymin2. destruct (Qltb 1 (inject_Z n / inject_Z n)) eqn:L;
    [reflexivity | exact E].
Qed.

Lemma sorted_map_seq (f : nat -> Q) (a n : nat) :
  (forall i j, (i <= j)%nat -> f i <= f j) ->
  StronglySorted Qle (map f (seq a n)).
Proof.
  intro Hf. revert a. induction n as [| n IH]; intro a; cbn [seq map].
  - constructor.
  - constructor; [apply IH |].
    apply Forall_forall. intros v Hv. apply in_map_iff in Hv.
    destruct Hv as (k & <- & Hk). apply in_seq in Hk. apply Hf. lia.
Qed.

(** C8 (progress monotonicity): the values sent to the progress bar are
    [min(idx / max(total, 1), 1.0)] for [idx = 1..N] when reporting is
    switched on (and none otherwise); they are non-decreasing, lie in
    [0, 1], and the last one reported is 1. *)
Theorem progress_is_monotone (env : World) (records : list row) :
  let n := List.length records in
  let ps := st_progress (snd (create_pdf_run env records)) in
  ps = (if progress_on env
        then map (fun k => progress_value (Z.of_nat n) (1 + Z.of_nat k)) (seq 0 n)
        else []) /\
  StronglySorted Qle ps /\
  Forall (fun v => 0 <= v /\ v <= 1) ps /\
  match ps with
  | [] => progress_on env = false \/ records = []
  | _ => last ps 0 == 1
  end.
Proof.
  intros n ps.
  destruct (create_pdf_run_spec env records) as (st & new & E & _ & P & _).
  assert (Eps : ps = st_progress st) by (subst ps; now rewrite E).
  fold n in P. rewrite Eps, P. clear Eps P E.
  split; [reflexivity |].
  destruct (progress_on env); [| repeat split; try constructor; auto].
  split; [| split].
  - apply sorted_map_seq. intros i j H. apply progress_value_mono. lia.
  - apply Forall_forall. intros v Hv. apply in_map_iff in Hv.
    destruct Hv as (k & <- & _). apply progress_value_range. lia.
  - destruct n as [| m] eqn:En.
    + right. subst n. now apply length_zero_iff_nil.
    + rewrite seq_S, map_app. cbn [map plus].
      destruct (map _ (seq 0 m) ++ _) eqn:El.
      * apply app_eq_nil in El. destruct El; discriminate.
      * rewrite <- El, last_last.
        replace (1 + Z.of_nat m)%Z with (Z.of_nat (S m)) by lia.
        apply progress_value_last. lia.
Qed.

(** ** The leading empty line *)

(** C5 (oversized character): for the one-character string whose
    character is wider than [max_width], [wrap_text] returns an empty
    line followed by the character, two lines where the claim allows
    one. *)
Theorem wrap_text_oversized_first_char (sw : str -> str -> Z -> Q) (c : char)
    (max_width : Q) (font_name : str) (font_size : Z) :
  max_width < sw [c] font_name font_size ->
  wrap_text sw [c] max_width font_name font_size = [[]; [c]].
Proof.
  intro H. unfold wrap_text, wrap_text_of, wrap_loop. cbn [app].
  destruct (Qle_bool (sw [c] font_name font_size) max_width) eqn:E;
    [| reflexivity].
  apply Qle_bool_iff in E. exfalso. lra.
Qed.

(** A 12-point glyph in a column of 5 points. *)
Lemma wrap_text_oversized_first_char_witness :
  5 < mono 12 (py "W") cid_font 12 /\
  wrap_text (mono 12) (py "W") 5 cid_font 12 = [py ""; py "W"].
Proof.
  assert (H : 5 < mono 12 (py "W") cid_font 12) by reflexivity.
  split; [exact H |].
  exact (wrap_text_oversized_first_char (mono 12) 87%N 5 cid_font 12 H).
Defined.

(** ** Further facts about the wrapper *)

Lemma wrap_text_empty_input (sw : str -> str -> Z -> Q) (max_width : Q)
    (font_name : str) (font_size : Z) :
  wrap_text sw [] max_width font_name font_size = [[]].
Proof. reflexivity. Qed.

Section Oversized.
Variable sw : str -> str -> Z -> Q.
Variable max_width : Q.
Variable font_name : str.
Variable font_size : Z.

(** The measurer never shrinks when text is added around a string. *)
Hypothesis sw_monotone :
  forall a ln b,
    sw ln font_name font_size <= sw (a ++ ln ++ b) font_name font_size.

Variable c : char.
Hypothesis c_oversized : max_width < sw [c] font_name font_size.

Lemma wrap_loop_keeps_lines (s : str) :
  forall lines buf lines' buf',
    wrap_loop sw max_width font_name font_size s lines buf = (lines', buf') ->
    exists more, lines' = lines ++ more.
Proof.
  induction s as [| ch s IH]; intros lines buf lines' buf' H; simpl in H.
  - injection H as <- _. exists []. now rewrite app_nil_r.
  - destruct (Qle_bool _ _); apply IH in H; destruct H as [more ->].
    + eauto.
    + rewrite <- app_assoc. eauto.
Qed.

Lemma wrap_loop_after_oversized (s : str) :
  forall lines lines' buf',
    wrap_loop sw max_width font_name font_size s lines [c] = (lines', buf') ->
    In [c] lines' \/ buf' = [c].
Proof.
  destruct s as [| d s]; intros lines lines' buf' H.
  - simpl in H. injection H as _ <-. now right.
  - cbn [wrap_loop] in H.
    destruct (Qle_bool (sw ([c] ++ [d]) font_name font_size) max_width) eqn:E.
    + apply Qle_bool_iff in E.
      pose proof (sw_monotone [] [c] [d]) as M. cbn [app] in M, E.
      exfalso. lra.
    + apply wrap_loop_keeps_lines in H. destruct H as [more ->].
      left. apply in_or_app. left. apply in_or_app. right. now left.
Qed.

Lemma wrap_loop_oversized (pre post : str) :
  forall lines buf lines' buf',
    wrap_loop sw max_width font_name font_size (pre ++ c :: post) lines buf
    = (lines', buf') ->
    In [c] lines' \/ buf' = [c].
Proof.
  induction pre as [| d pre IH]; intros lines buf lines' buf' H.
  - cbn [app wrap_loop] in H.
    destruct (Qle_bool (sw (buf ++ [c]) font_name font_size) max_width) eqn:E.
    + apply Qle_bool_iff in E.
      pose proof (sw_monotone buf [c] []) as M. rewrite app_nil_r in M.
      exfalso. lra.
    + apply wrap_loop_after_oversized in H. exact H.
  - cbn [app wrap_loop] in H.
    destruct (Qle_bool _ _); apply IH in H; exact H.
Qed.

(** X9: with a monotone measurer, a character wider than [max_width]
    is a line of its own wherever it stands in the text. *)
Lemma wrap_text_oversized_alone (pre post : str) :
  In [c] (wrap_text sw (pre ++ c :: post) max_width font_name font_size).
Proof.
  unfold wrap_text, wrap_text_of.
  destruct (pre ++ c :: post) as [| x s] eqn:Es;
    [destruct pre; discriminate |].
  rewrite <- Es.
  destruct (wrap_loop sw max_width font_name font_size (pre ++ c :: post) [] [])
    as [lines buf] eqn:E.
  apply wrap_loop_oversized in E. destruct E as [Hin | ->].
  - destruct buf; [exact Hin | apply in_or_app; now left].
  - apply in_or_app. right. now left.
Qed.
End Oversized.

(* ================================================================== *)
(** * Further properties of the code *)
(* ================================================================== *)

(** ** [strip] and [safe_get] *)

Lemma lstrip_head (s : str) :
  match lstrip s with
  | [] => True
  | c :: _ => isspace c = false
  end.
Proof.
  induction s as [| c s IH]; cbn [lstrip]; [exact I |].
  destruct (isspace c) eqn:E; [exact IH | exact E].
Qed.

Lemma lstrip_fixed (s : str) :
  match s with
  | [] => True
  | c :: _ => isspace c = false
  end ->
  lstrip s = s.
Proof. destruct s as [| c s]; cbn [lstrip]; [auto | now intros ->]. Qed.

Lemma lstrip_suffix (s : str) : exists pre, s = pre ++ lstrip s.
Proof.
  induction s as [| c s [pre IH]]; cbn [lstrip]; [now exists [] |].
  destruct (isspace c); [| now exists []].
  exists (c :: pre). cbn. now rewrite <- IH.
Qed.

Lemma strip_trimmed (s : str) : trimmed (strip s).
Proof.
  unfold trimmed, strip. rewrite rev_involutive. split; [| apply lstrip_head].
  destruct (lstrip_suffix (rev (lstrip s))) as [pre E].
  apply (f_equal (@rev char)) in E. rewrite rev_involutive, rev_app_distr in E.
  pose proof (lstrip_head s) as H. rewrite E in H.
  destruct (rev (lstrip (rev (lstrip s)))); [exact I | exact H].
Qed.

Lemma strip_of_trimmed (s : str) : trimmed s -> strip s = s.
Proof.
  intros [H1 H2]. unfold strip.
  rewrite (lstrip_fixed s H1), (lstrip_fixed (rev s) H2). apply rev_involutive.
Qed.

Lemma safe_get_cons (r : row) (k : str) (keys : list str) :
  safe_get r (k :: keys) =
  match cell_text r k with
  | [] => safe_get r keys
  | s => s
  end.
Proof.
  cbn [safe_get]. unfold cell_text.
  destruct (dict_get r k) as [[v |] |]; reflexivity.
Qed.

(** X1: whatever [safe_get] returns has no whitespace at either end,
    so stripping it again changes nothing. *)
Theorem safe_get_trimmed (r : row) (keys : list str) :
  trimmed (safe_get r keys) /\ strip (safe_get r keys) = safe_get r keys.
Proof.
  assert (T : trimmed (safe_get r keys)).
  { induction keys as [| k keys IH]; [now split |].
    rewrite safe_get_cons. unfold cell_text.
    destruct (dict_get r k) as [[v |] |]; try exact IH.
    pose proof (strip_trimmed v) as Hv.
    destruct (strip v); [exact IH | exact Hv]. }
  split; [exact T | now apply strip_of_trimmed].
Qed.

(** X2: [safe_get] returns the empty default exactly when every key is
    missing from the row, holds NaN / None, or holds only whitespace. *)
Theorem safe_get_empty_iff (r : row) (keys : list str) :
  safe_get r keys = [] <-> Forall (fun k => cell_text r k = []) keys.
Proof.
  induction keys as [| k keys IH]; [split; [constructor | reflexivity] |].
  rewrite safe_get_cons. destruct (cell_text r k) eqn:E.
  - rewrite IH. split; [now constructor | now inversion 1].
  - split; [discriminate |]. inversion 1; subst. congruence.
Qed.

(** X3: aliases are tried in order: the first key whose cell holds
    something other than whitespace decides the result, whatever the
    later keys hold. *)
Theorem safe_get_first_alias (r : row) (before : list str) (k : str)
    (after : list str) :
  Forall (fun k' => cell_text r k' = []) before ->
  cell_text r k <> [] ->
  safe_get r (before ++ k :: after) = cell_text r k.
Proof.
  intros Hb Hk. induction Hb as [| k' before E _ IH]; cbn [app].
  - rewrite safe_get_cons. destruct (cell_text r k); congruence.
  - rewrite safe_get_cons, E. exact IH.
Qed.

Lemma safe_get_first_alias_witness :
  let r := [(k_setsumon, Some (py "  Q  ")); (k_mondaibun, Some (py " "));
            (k_mondai, Some (py "other"))] in
  Forall (fun k' => cell_text r k' = []) [k_mondaibun] /\
  cell_text r k_setsumon <> [] /\
  safe_get r [k_mondaibun; k_setsumon; k_mondai; k_honbun] = py "Q".
Proof.
  intro r.
  assert (Hb : Forall (fun k' => cell_text r k' = []) [k_mondaibun])
    by (constructor; [reflexivity | constructor]).
  assert (Hk : cell_text r k_setsumon <> []) by (vm_compute; discriminate).
  split; [exact Hb |]. split; [exact Hk |].
  exact (safe_get_first_alias r [k_mondaibun] k_setsumon [k_mondai; k_honbun] Hb Hk).
Defined.

(** ** Drive links *)

Lemma split_go_not_starting (sep : str) (c0 : char) (sep' : str) (seg : str) :
  sep = c0 :: sep' -> ~ In c0 seg ->
  forall cur rest,
    split_go sep 0 cur (seg ++ rest) = split_go sep 0 (rev seg ++ cur) rest.
Proof.
  intros -> Hseg. induction seg as [| c seg IH]; intros cur rest; [reflexivity |].
  cbn [app split_go startswith].
  destruct (N.eqb_spec c0 c) as [-> | Hne]; [exfalso; apply Hseg; now left |].
  cbn [andb]. rewrite IH by (intro; apply Hseg; now right).
  cbn [rev]. now rewrite <- app_assoc.
Qed.

Lemma split_go_head_prefix (sep : str) (s : str) :
  forall cur, exists z more tl,
    split_go sep 0 cur s = (rev cur ++ z) :: more /\ s = z ++ tl /\
    (tl = [] \/ startswith sep tl = true).
Proof.
  induction s as [| c s IH]; intro cur.
  - exists [], [], []. cbn. rewrite app_nil_r. auto.
  - cbn [split_go]. destruct (startswith sep (c :: s)) eqn:E.
    + exists [], (split_go sep (List.length sep - 1) [] s), (c :: s).
      rewrite app_nil_r. auto.
    + destruct (IH (c :: cur)) as (z & more & tl & E1 & E2 & E3).
      exists (c :: z), more, tl. rewrite E1, E2. cbn [rev app].
      rewrite <- app_assoc. auto.
Qed.

(** X4: for the usual share link, the file id is the text between
    "/file/d/" and the next "/" (or the end of the URL), and the result
    is the direct-content link for that id. *)
Theorem convert_google_drive_link_file_id (seg rest : str) :
  ~ In 47%N seg ->
  rest = [] \/ (exists tail, rest = 47%N :: tail) ->
  convert_google_drive_link (py "https://drive.google.com/file/d/" ++ seg ++ rest)
  = uc_prefix ++ seg.
Proof.
  intros Hseg Hrest. unfold convert_google_drive_link.
  replace (contains drive_domain (py "https://drive.google.com/file/d/" ++ seg ++ rest))
    with true by reflexivity.
  replace (contains file_d (py "https://drive.google.com/file/d/" ++ seg ++ rest))
    with true by reflexivity.
  cbn [andb]. unfold split.
  replace (split_go file_d 0 [] (py "https://drive.google.com/file/d/" ++ seg ++ rest))
    with (py "https://drive.google.com" :: split_go file_d 0 [] (seg ++ rest))
    by reflexivity.
  rewrite (split_go_not_starting file_d 47%N (py "file/d/") seg eq_refl Hseg).
  destruct (split_go_head_prefix file_d rest (rev seg ++ []))
    as (z & more & tl & -> & Ez & _).
  cbn [index nth_error obind]. rewrite app_nil_r, rev_involutive.
  assert (Hz : z = [] \/ exists z', z = 47%N :: z').
  { destruct Hrest as [-> | [tail ->]].
    - destruct z; [now left | discriminate].
    - destruct z as [| c z]; [now left | right].
      injection Ez as -> _. eauto. }
  rewrite (split_go_not_starting slash 47%N [] seg eq_refl Hseg).
  rewrite app_nil_r.
  destruct Hz as [-> | [z' ->]]; cbn; now rewrite rev_involutive.
Qed.

Lemma convert_google_drive_link_file_id_witness :
  ~ In 47%N (py "1AbC-dEf_9") /\
  convert_google_drive_link
    (py "https://drive.google.com/file/d/" ++ py "1AbC-dEf_9" ++ py "/preview")
  = uc_prefix ++ py "1AbC-dEf_9".
Proof.
  assert (H : ~ In 47%N (py "1AbC-dEf_9")).
  { cbn. intros H. repeat (destruct H as [H | H]; [discriminate |]). exact H. }
  split; [exact H |].
  apply (convert_google_drive_link_file_id (py "1AbC-dEf_9") (py "/preview") H).
  right. exists (py "preview"). reflexivity.
Defined.

(** ** Search keywords *)

Lemma split_char_pieces (c : char) (s : str) :
  forall cur,
    ~ In c cur -> Forall (fun p => ~ In c p) (split_go [c] 0 cur s).
Proof.
  induction s as [| d s IH]; intros cur Hcur; cbn [split_go].
  - constructor; [now rewrite <- in_rev | constructor].
  - cbn [startswith List.length Nat.sub].
    destruct (N.eqb_spec c d) as [<- | Hne]; cbn [andb].
    + constructor; [now rewrite <- in_rev |]. apply IH. intros [].
    + apply IH. intros [E | Hin]; [congruence | contradiction].
Qed.

Lemma in_lstrip (x : char) (s : str) : In x (lstrip s) -> In x s.
Proof.
  destruct (lstrip_suffix s) as [pre E]. intro H. rewrite E.
  apply in_or_app. now right.
Qed.

Lemma in_strip (x : char) (s : str) : In x (strip s) -> In x s.
Proof.
  unfold strip. intro H. apply in_rev in H. apply in_lstrip in H.
  apply in_rev in H. now apply in_lstrip.
Qed.

Lemma lstrip_spaces (s : str) :
  Forall (fun c => isspace c = true) s -> lstrip s = [].
Proof.
  induction 1 as [| c s Hc _ IH]; cbn [lstrip]; [reflexivity |].
  now rewrite Hc.
Qed.

(** X5: every search keyword is non-empty, has no whitespace at either
    end and contains no "&". *)
Theorem keywords_well_formed (query k : str) :
  In k (keywords query) -> k <> [] /\ trimmed k /\ ~ In 38%N k.
Proof.
  unfold keywords. intro H. apply in_flat_map in H.
  destruct H as (kw & Hkw & Hk).
  pose proof (strip_trimmed kw) as T.
  assert (A : ~ In 38%N kw).
  { pose proof (split_char_pieces 38%N query [] (fun f => f)) as F.
    rewrite Forall_forall in F. now apply F. }
  destruct (strip kw) as [| c t] eqn:E; [destruct Hk |].
  destruct Hk as [<- | []]. split; [discriminate |]. split; [exact T |].
  intro Hin. apply A. apply in_strip. now rewrite E.
Qed.

Lemma keywords_well_formed_witness :
  In (py "resin") (keywords (py " resin & hard ness &&")) /\
  py "resin" <> [] /\ trimmed (py "resin") /\ ~ In 38%N (py "resin").
Proof.
  assert (H : In (py "resin") (keywords (py " resin & hard ness &&")))
    by (now left).
  split; [exact H |].
  exact (keywords_well_formed (py " resin & hard ness &&") (py "resin") H).
Defined.

(** X6: a query made only of "&" and whitespace yields no keyword at
    all. *)
Theorem keywords_blank_query (query : str) :
  Forall (fun c => c = 38%N \/ isspace c = true) query ->
  keywords query = [].
Proof.
  intro H. unfold keywords, split.
  assert (F : Forall (Forall (fun c => isspace c = true))
                (split_go (py "&") 0 [] query)).
  { change (py "&") with [38%N].
    generalize (@nil char) (Forall_nil (fun c : char => isspace c = true)).
    induction H as [| d s Hd Hs IH]; intros cur Hcur; cbn [split_go].
    - constructor; [| constructor]. now apply Forall_rev.
    - cbn [startswith List.length Nat.sub].
      destruct (N.eqb_spec 38 d) as [<- | Hne]; cbn [andb].
      + constructor; [now apply Forall_rev | apply IH; constructor].
      + apply IH. constructor; [| exact Hcur].
        destruct Hd as [-> | Hd]; [congruence | exact Hd]. }
  induction F as [| p ps Hp _ IH]; cbn [flat_map]; [reflexivity |].
  unfold strip at 1. rewrite (lstrip_spaces p Hp). cbn. exact IH.
Qed.

Lemma keywords_blank_query_witness :
  Forall (fun c => c = 38%N \/ isspace c = true) (py " & &  ") /\
  keywords (py " & &  ") = [].
Proof.
  assert (H : Forall (fun c => c = 38%N \/ isspace c = true) (py " & &  ")).
  { repeat constructor; (now left) || (now right). }
  split; [exact H | exact (keywords_blank_query (py " & &  ") H)].
Defined.

(** ** The shape of wrapped text *)

Lemma wrap_loop_lines_nonempty (sw : str -> str -> Z -> Q) (max_width : Q)
    (font_name : str) (font_size : Z) (s : str) :
  forall lines buf lines' buf',
    wrap_loop sw max_width font_name font_size s lines buf = (lines', buf') ->
    buf <> [] ->
    exists more,
      lines' = lines ++ more /\ Forall (fun ln => ln <> []) more /\ buf' <> [] /\
      (List.length more <= List.length s)%nat.
Proof.
  induction s as [| ch s IH]; intros lines buf lines' buf' H Hb; cbn [wrap_loop] in H.
  - injection H as <- <-. exists []. rewrite app_nil_r. repeat split; auto.
  - destruct (Qle_bool _ _).
    + apply IH in H; [| destruct buf; discriminate].
      destruct H as (more & -> & F & Hb' & L). exists more. cbn [List.length].
      repeat split; auto.
    + apply IH in H; [| discriminate].
      destruct H as (more & -> & F & Hb' & L). exists (buf :: more).
      rewrite <- app_assoc. cbn [List.length]. repeat split; auto. lia.
Qed.

(** X7: of the lines returned for a non-empty text only the first can
    be empty, and it is empty exactly when the first character alone
    is wider than [max_width]; the text yields at least one line and
    at most one line more than it has characters. *)
Theorem wrap_text_line_shape (sw : str -> str -> Z -> Q) (c : char) (s : str)
    (max_width : Q) (font_name : str) (font_size : Z) :
  exists l0 rest,
    wrap_text sw (c :: s) max_width font_name font_size = l0 :: rest /\
    Forall (fun ln => ln <> []) rest /\
    (l0 = [] <-> max_width < sw [c] font_name font_size) /\
    (List.length rest <= List.length (c :: s))%nat.
Proof.
  unfold wrap_text, wrap_text_of. cbn [wrap_loop app].
  destruct (Qle_bool (sw [c] font_name font_size) max_width) eqn:E.
  - destruct (wrap_loop sw max_width font_name font_size s [] [c])
      as [lines buf] eqn:W.
    apply wrap_loop_lines_nonempty in W; [| discriminate].
    destruct W as (more & -> & F & Hb & L). cbn [app].
    apply Qle_bool_iff in E.
    destruct buf as [| b buf]; [congruence |].
    destruct more as [| m more]; cbn [app].
    + exists (b :: buf), []. repeat split; auto; try discriminate.
      * intro. exfalso. lra.
      * cbn. lia.
    + exists m, (more ++ [b :: buf]). inversion F; subst. repeat split.
      * apply Forall_app. split; [assumption |].
        constructor; [discriminate | constructor].
      * intro. congruence.
      * intro. exfalso. lra.
      * rewrite length_app. cbn [List.length] in *. lia.
  - destruct (wrap_loop sw max_width font_name font_size s _ [c])
      as [lines buf] eqn:W.
    apply wrap_loop_lines_nonempty in W; [| discriminate].
    destruct W as (more & -> & F & Hb & L). cbn [app].
    assert (Hlt : max_width < sw [c] font_name font_size).
    { destruct (Qlt_le_dec max_width (sw [c] font_name font_size)) as [? | Hle];
        [assumption |]. apply Qle_bool_iff in Hle. congruence. }
    destruct buf as [| b buf]; [congruence |].
    exists [], (more ++ [b :: buf]). repeat split; auto.
    + apply Forall_app. split; [assumption |]. constructor; [discriminate | constructor].
    + rewrite length_app. cbn [List.length]. lia.
Qed.

(** X8: with a measurer that never shrinks when text is appended, a
    non-empty text that fits the width is returned as one line,
    unchanged. *)
Theorem wrap_text_short_text (sw : str -> str -> Z -> Q) (s : str)
    (max_width : Q) (font_name : str) (font_size : Z) :
  (forall a b, sw a font_name font_size <= sw (a ++ b) font_name font_size) ->
  s <> [] ->
  sw s font_name font_size <= max_width ->
  wrap_text sw s max_width font_name font_size = [s].
Proof.
  intros Hmono Hs Hfit. apply wrap_text_fits; [exact Hs |].
  intros k _. pose proof (Hmono (firstn k s) (skipn k s)) as H.
  rewrite firstn_skipn in H. lra.
Qed.

Lemma mono_monotone (w : Q) (font_name : str) (font_size : Z) (a ln b : str) :
  0 <= w ->
  mono w ln font_name font_size <= mono w (a ++ ln ++ b) font_name font_size.
Proof.
  intro Hw. unfold mono, of_nat. rewrite !length_app, !Nat2Z.inj_add, !inject_Z_plus.
  pose proof (of_nat_nonneg (List.length a)) as Ha.
  pose proof (of_nat_nonneg (List.length b)) as Hb.
  pose proof (of_nat_nonneg (List.length ln)) as Hl.
  unfold of_nat in *. nra.
Qed.

Lemma wrap_text_short_text_witness :
  py "Q1" <> [] /\
  mono 12 (py "Q1") cid_font 12 <= usable_width /\
  wrap_text (mono 12) (py "Q1") usable_width cid_font 12 = [py "Q1"].
Proof.
  assert (Hs : py "Q1" <> []) by discriminate.
  assert (Hfit : mono 12 (py "Q1") cid_font 12 <= usable_width) by now vm_compute.
  split; [exact Hs |]. split; [exact Hfit |].
  apply (wrap_text_short_text (mono 12) (py "Q1") usable_width cid_font 12);
    [| exact Hs | exact Hfit].
  intros a b. pose proof (mono_monotone 12 cid_font 12 [] a b) as H.
  cbn [app] in H. apply H. now vm_compute.
Defined.

Lemma wrap_text_oversized_alone_witness :
  5 < mono 12 (py "W") cid_font 12 /\
  In (py "W") (wrap_text (mono 12) (py "ab" ++ 87%N :: py "cd") 5 cid_font 12).
Proof.
  assert (H : 5 < mono 12 (py "W") cid_font 12) by reflexivity.
  split; [exact H |].
  apply (wrap_text_oversized_alone (mono 12) 5 cid_font 12); [| exact H].
  intros a ln b. apply mono_monotone. now vm_compute.
Defined.

(** ** Records on the page *)

Lemma prefetch_height_nonneg (env : World) (link : str) :
  0 <= snd (prefetch env link).
Proof.
  destruct (prefetch_cases env link)
    as [[_ ->] | [[_ ->] | [_ (p & s & Hs & ->)]]]; cbn [snd].
  - lra.
  - unfold lines_h, line_h.
    pose proof (of_nat_nonneg (List.length (wl env [] load_failed))). nra.
  - destruct (scaled_dims _ _ _ Hs) as (_ & _ & H & _). lra.
Qed.

Lemma lines_h_wrapped (env : World) (prefix value : str) :
  line_h <= lines_h (wl env prefix value).
Proof.
  unfold wl, wrapped_lines.
  pose proof (wrap_text_nonempty (stringWidth env) (prefix ++ value) usable_width
                (font env) 12) as H.
  destruct (wrap_text _ _ _ _ _) as [| l ls]; [congruence |].
  rewrite lines_h_cons. unfold lines_h, line_h.
  pose proof (of_nat_nonneg (List.length ls)). nra.
Qed.

Lemma lines_h_nonneg (ls : list str) : 0 <= lines_h ls.
Proof.
  unfold lines_h, line_h. pose proof (of_nat_nonneg (List.length ls)). nra.
Qed.

(** The text fields of the plan. *)
Lemma estimate_lines (env : World) (r : row) :
  q_lines (estimate env r)
  = wl env (k_mondaibun ++ colon_sp)
      (safe_get r [k_mondaibun; k_setsumon; k_mondai; k_honbun]) /\
  choice_lines_list (estimate env r)
  = map (fun iv => wl env (k_sentakushi ++ digit_str (fst iv) ++ colon_sp) (snd iv))
      (choices r) /\
  ans_lines (estimate env r)
  = wl env (k_seikai ++ colon_sp) (safe_get r [k_seikai; k_kaitou; k_kotae]) /\
  cat_lines (estimate env r)
  = wl env (k_bunrui ++ colon_sp) (safe_get r [k_kamokubunrui; k_bunrui; k_kamoku]) /\
  link_raw (estimate env r)
  = safe_get r [k_link_url; k_gazou_url; k_gazou_link; k_link].
Proof.
  unfold estimate. destruct (prefetch env _). cbn. auto.
Qed.

(** X10: every record is estimated at 74 points or more (a line each
    for question, answer and category, and the trailing padding), so
    no more than ten records fit under one another on a page. *)
Theorem est_h_at_least (env : World) (r : row) :
  74 <= est_h (estimate env r) /\
  page_usable_h < 11 * est_h (estimate env r).
Proof.
  assert (A : 74 <= est_h (estimate env r)).
  { destruct (estimate_plan env r) as [_ E]. rewrite E.
    pose proof (prefetch_height_nonneg env (link_raw (estimate env r))) as Hp.
    pose proof (lines_h_nonneg (concat (choice_lines_list (estimate env r)))) as Hc.
    destruct (estimate_lines env r) as (Eq & _ & Ea & Ek & _).
    assert (Hq : line_h <= lines_h (q_lines (estimate env r)))
      by (rewrite Eq; apply lines_h_wrapped).
    assert (Ha : line_h <= lines_h (ans_lines (estimate env r)))
      by (rewrite Ea; apply lines_h_wrapped).
    assert (Hk : line_h <= lines_h (cat_lines (estimate env r)))
      by (rewrite Ek; apply lines_h_wrapped).
    unfold line_h in *. lra. }
  split; [exact A |].
  assert (B : page_usable_h < 11 * 74) by reflexivity. lra.
Qed.







(** ** What reaches the canvas *)

Section CanvasInvariant.
Variable env : World.
Variable P : op -> Prop.
Hypothesis P_text : forall y ln, P (DrawString left_margin y ln).
Hypothesis P_page : P ShowPage.
Hypothesis P_font : P (SetFont (font env) 12).
Hypothesis P_image :
  forall p s,
    image_scale (fst (size p)) (snd (size p)) = Ret s ->
    emits P (draw_image env p).

Lemma emits_ret : emits P (ret tt).
Proof. intro st. exists st, [], []. split; [apply runs_ret | constructor]. Qed.

Lemma emits_bind (m1 m2 : M unit) :
  emits P m1 -> emits P m2 -> emits P (m1 ;;; m2).
Proof.
  intros H1 H2 st.
  destruct (H1 st) as (s1 & n1 & p1 & R1 & F1).
  destruct (H2 s1) as (s2 & n2 & p2 & R2 & F2).
  exists s2, (n1 ++ n2), (p1 ++ p2).
  split; [eapply runs_bind; eassumption | now apply Forall_app].
Qed.

Lemma emits_get_y (k : Q -> M unit) :
  (forall y, emits P (k y)) -> emits P (y <- get_y ;; k y).
Proof. intros H st. exact (H (st_y st) st). Qed.

Lemma emits_emit (o : op) : P o -> emits P (emit o).
Proof.
  intros H st. eexists. exists [o], []. unfold runs, emit. cbn.
  rewrite app_nil_r. repeat split. now constructor.
Qed.

Lemma emits_set_y (v : Q) : emits P (set_y v).
Proof.
  intro st. eexists. exists [], []. unfold runs, set_y. cbn.
  rewrite !app_nil_r. repeat split. constructor.
Qed.

Lemma emits_new_page : emits P (new_page env).
Proof.
  unfold new_page. repeat apply emits_bind;
    auto using emits_emit, emits_set_y.
Qed.

Lemma emits_draw_wrapped_lines (lines : list str) :
  emits P (draw_wrapped_lines lines).
Proof.
  induction lines as [| ln rest IH]; cbn [draw_wrapped_lines];
    [apply emits_ret |].
  apply emits_get_y. intro y.
  repeat apply emits_bind; auto using emits_emit, emits_set_y.
Qed.

Lemma emits_draw_each (lss : list (list str)) : emits P (draw_each lss).
Proof.
  induction lss as [| ls rest IH]; cbn [draw_each]; [apply emits_ret |].
  apply emits_bind; [apply emits_draw_wrapped_lines | exact IH].
Qed.

Lemma emits_draw_record (r : row) : emits P (draw_record env (estimate env r)).
Proof.
  unfold draw_record.
  repeat apply emits_bind;
    auto using emits_draw_wrapped_lines, emits_draw_each.
  - unfold draw_image_slot.
    destruct (estimate_plan env r) as [Hpil _]. rewrite Hpil.
    destruct (prefetch_cases env (link_raw (estimate env r)))
      as [[El Ep] | [[El Ep] | [El (p & s & Hs & Ep)]]]; rewrite Ep; cbn [fst].
    + rewrite El. apply emits_ret.
    + destruct (link_raw (estimate env r));
        [apply emits_ret | apply emits_draw_wrapped_lines].
    + exact (P_image p s Hs).
  - unfold trailing_padding. apply emits_get_y. intro y.
    destruct (Qltb (y - 20) bottom_margin);
      [apply emits_new_page | apply emits_set_y].
Qed.

Lemma emits_loop_body (total idx : Z) (r : row) :
  emits P (loop_body env total idx r).
Proof.
  unfold loop_body.
  apply emits_bind; [| apply emits_bind].
  - unfold page_break. apply emits_get_y. intro y. unfold when.
    destruct (Qltb _ _); [apply emits_new_page | apply emits_ret].
  - apply emits_draw_record.
  - intro st. destruct (report_progress_runs env total idx st) as (st' & R & _).
    eexists. exists []. eexists. split; [exact R | constructor].
Qed.

Lemma emits_layout_loop (total : Z) (records : list row) :
  forall idx, emits P (layout_loop env total idx records).
Proof.
  induction records as [| r rest IH]; intro idx; cbn [layout_loop].
  - apply emits_ret.
  - apply emits_bind; [apply emits_loop_body | apply IH].
Qed.

(** Every call on the canvas of the finished document satisfies [P]. *)
Lemma create_pdf_canvas (records : list row) :
  P Save ->
  exists doc, create_pdf env records = Ret doc /\ Forall P doc.
Proof.
  intro P_save.
  destruct (emits_layout_loop (Z.of_nat (List.length records)) records 1
              (init_state env)) as (s1 & new & newp & (E & C & _) & F).
  unfold create_pdf, create_pdf_run, bind. rewrite E. unfold emit. cbn.
  eexists. split; [reflexivity |]. rewrite C. cbn.
  constructor; [exact P_font |]. apply Forall_app. split; [exact F |].
  constructor; [exact P_save | constructor].
Qed.
End CanvasInvariant.

Lemma pymin2_le_first (a b : Q) : pymin2 a b <= a.
Proof.
  unfold pymin2. destruct (Qltb b a) eqn:E; [apply Qltb_true in E |]; lra.
Qed.

(** The scaled image fits the usable width and the usable page height. *)
Lemma scaled_within_page (iw ih : N) (s : Q) :
  image_scale iw ih = Ret s ->
  of_N iw * s <= usable_width /\ of_N ih * s <= page_usable_h.
Proof.
  intro H. destruct (image_scale_ret _ _ _ H) as (Hw & Hh & ->).
  apply of_N_pos in Hw. apply of_N_pos in Hh.
  set (a := usable_width / of_N iw). set (b := page_usable_h / of_N ih).
  assert (Ha : pymin3 a b 1 <= a).
  { unfold pymin3. pose proof (pymin2_le_first (pymin2 a b) 1).
    pose proof (pymin2_le_first a b). lra. }
  assert (Hb : pymin3 a b 1 <= b).
  { unfold pymin3. pose proof (pymin2_le_first (pymin2 a b) 1).
    pose proof (pymin2_le_r a b). lra. }
  assert (Ea : of_N iw * a == usable_width) by (subst a; field; lra).
  assert (Eb : of_N ih * b == page_usable_h) by (subst b; field; lra).
  split; nra.
Qed.

(** What the image step puts on the canvas. *)
Lemma draw_image_placed (env : World) (p : PIL) (s : Q) :
  image_scale (fst (size p)) (snd (size p)) = Ret s ->
  emits (fun o => image_placed o /\ text_at_margin o) (draw_image env p).
Proof.
  intros Hs st.
  destruct (scaled_within_page _ _ _ Hs) as [Hw Hh].
  assert (Hplaced : forall y,
            bottom_margin <= y - of_N (snd (size p)) * s ->
            image_placed
              (DrawImage p left_margin (y - of_N (snd (size p)) * s)
                 (of_N (fst (size p)) * s) (of_N (snd (size p)) * s)) /\
            text_at_margin
              (DrawImage p left_margin (y - of_N (snd (size p)) * s)
                 (of_N (fst (size p)) * s) (of_N (snd (size p)) * s))).
  { intros y Hy. cbn. repeat split; auto. exists s. auto. }
  assert (Hpage : Forall (fun o => image_placed o /\ text_at_margin o)
                    [ShowPage; SetFont (font env) 12])
    by (repeat constructor).
  revert Hs Hw Hh Hplaced.
  unfold draw_image, try_except, runs.
  destruct (size p) as [iw ih]. cbn [fst snd]. intros Hs Hw Hh Hplaced.
  unfold bind at 1. unfold lift at 1. rewrite Hs.
  unfold bind at 1. unfold get_y at 1. unfold bind at 1. unfold when.
  set (nw := of_N iw * s) in *. set (nh := of_N ih * s) in *.
  assert (Hlines : forall e st1 n1,
            st_canvas st1 = st_canvas st ++ n1 ->
            st_progress st1 = st_progress st ->
            Forall (fun o => image_placed o /\ text_at_margin o) n1 ->
            exists st' new newp,
              (draw_wrapped_lines (wl env [] (load_failed_with e)) st1 = (Ret tt, st') /\
               st_canvas st' = st_canvas st ++ new /\
               st_progress st' = st_progress st ++ newp) /\
              Forall (fun o => image_placed o /\ text_at_margin o) new).
  { intros e st1 n1 C1 P1 F1.
    destruct (emits_draw_wrapped_lines (fun o => image_placed o /\ text_at_margin o)
                ltac:(cbn; auto) (wl env [] (load_failed_with e)) st1)
      as (st' & n2 & p2 & (E2 & C2 & P2) & F2).
    exists st', (n1 ++ n2), p2. rewrite E2, C2, P2, C1, P1, app_assoc.
    repeat split. now apply Forall_app. }
  destruct (Qltb (st_y st - nh) bottom_margin) eqn:Eb.
  - (* a new page is started for the image *)
    unfold new_page at 1. unfold bind at 2 3. unfold emit at 1 2. unfold set_y at 1.
    cbn [st_y st_canvas st_progress].
    unfold bind at 1. unfold get_y at 1. cbn [st_y]. unfold bind at 1.
    assert (Hf : Qltb (height - top_margin - bottom_margin) nh = false)
      by (apply Qltb_false; unfold page_usable_h in Hh; exact Hh).
    rewrite Hf. unfold ret at 1. unfold bind at 1. unfold lift at 1.
    destruct (render_image env p) as [[] | e].
    + unfold bind, emit, set_y. cbn [st_y st_canvas st_progress].
      eexists. exists ([ShowPage; SetFont (font env) 12] ++
                       [DrawImage p left_margin (height - top_margin - nh) nw nh]), [].
      rewrite <- !app_assoc, app_nil_r. cbn [app].
      split; [split; [reflexivity | split; reflexivity] |].
      do 2 (constructor; [split; exact I |]).
      constructor; [| constructor].
      apply (Hplaced (height - top_margin)).
      unfold page_usable_h in Hh. lra.
    + apply (Hlines e _ [ShowPage; SetFont (font env) 12]).
      * cbn. now rewrite <- app_assoc.
      * reflexivity.
      * exact Hpage.
  - unfold ret at 1. unfold bind at 1. unfold get_y at 1. unfold bind at 1.
    assert (Hf : Qltb (st_y st - bottom_margin) nh = false)
      by (apply Qltb_false; apply Qltb_false in Eb; lra).
    rewrite Hf. unfold ret at 1. unfold bind at 1. unfold lift at 1.
    destruct (render_image env p) as [[] | e].
    + unfold bind, emit, set_y. cbn [st_y st_canvas st_progress].
      eexists. exists [DrawImage p left_margin (st_y st - nh) nw nh], [].
      rewrite app_nil_r.
      split; [split; [reflexivity | split; reflexivity] |].
      constructor; [| constructor].
      apply (Hplaced (st_y st)). now apply Qltb_false in Eb.
    + apply (Hlines e st []); [now rewrite app_nil_r | reflexivity | constructor].
Qed.

Lemma emits_weaken (P Q' : op -> Prop) (m : M unit) :
  (forall o, P o -> Q' o) -> emits P m -> emits Q' m.
Proof.
  intros H Hm st. destruct (Hm st) as (st' & new & newp & R & F).
  exists st', new, newp. split; [exact R |].
  eapply Forall_impl; [exact H | exact F].
Qed.

(** X12: [create_pdf] always returns a document, and on its canvas
    every text line starts at the left margin and every image is drawn
    at the left margin, no wider and no taller than the size
    [iw * scale] by [ih * scale] computed by the estimation pass, so
    the height reserved for the image in [est_h] always covers it. *)
Theorem canvas_is_well_placed (env : World) (records : list row) :
  exists doc,
    create_pdf env records = Ret doc /\
    Forall (fun o => image_covered o /\ text_at_margin o) doc.
Proof.
  apply create_pdf_canvas; cbn; auto.
  intros p s Hs.
  apply (emits_weaken (fun o => image_placed o /\ text_at_margin o));
    [| exact (draw_image_placed env p s Hs)].
  intros o [Hi Ht]. split; [| exact Ht].
  destruct o; try exact I. cbn in *.
  destruct Hi as (Hx & _ & _ & _ & s' & Hs' & -> & ->).
  split; [exact Hx |]. exists s'. split; [exact Hs' |]. split; apply Qle_refl.
Qed.

(** X13: when the first record is estimated taller than the usable page
    height, the page-break check closes the still empty first page:
    the document starts with a blank page, and the record begins on
    the second. *)
Theorem tall_first_record_leaves_blank_page (env : World) (r : row)
    (rest : list row) :
  page_usable_h < est_h (estimate env r) ->
  exists tail,
    create_pdf env (r :: rest)
    = Ret (SetFont (font env) 12 :: ShowPage :: SetFont (font env) 12 :: tail) /\
    contents tail = flat_map (record_contents env) (r :: rest).
Proof.
  intro Htall.
  set (total := Z.of_nat (List.length (r :: rest))).
  destruct (page_break_runs env (estimate env r) (init_state env))
    as (s1 & n1 & R1 & _ & _ & Hcase).
  assert (En : n1 = [ShowPage; SetFont (font env) 12]).
  { destruct Hcase as [(_ & -> & _) | (L & _ & _)]; [reflexivity |].
    exfalso. cbn [init_state st_y] in L. unfold page_usable_h in Htall. lra. }
  subst n1.
  destruct (draw_record_runs env r s1) as (s2 & n2 & R2 & C2 & _).
  destruct (report_progress_runs env total 1 s2) as (s3 & R3 & _).
  destruct (layout_loop_runs env total rest (1 + 1) s3)
    as (s4 & n4 & R4 & C4 & _).
  pose proof (runs_bind _ _ _ _ _ _ _ _ _
                (runs_bind _ _ _ _ _ _ _ _ _ R1
                   (runs_bind _ _ _ _ _ _ _ _ _ R2 R3)) R4) as (E & C & _).
  exists (n2 ++ [] ++ n4 ++ [Save]). split.
  - unfold create_pdf, create_pdf_run. fold total. cbn [layout_loop].
    unfold loop_body. unfold bind at 1. rewrite E. unfold emit. cbn.
    rewrite C. cbn. now rewrite <- !app_assoc.
  - rewrite !contents_app, C2, C4. cbn. now rewrite app_nil_r.
Qed.

Lemma tall_first_record_leaves_blank_page_witness :
  let env := online portrait (Ret tt) in
  let r := sample_row (py "Q1") (py "https://example.com/a.png") in
  page_usable_h < est_h (estimate env r) /\
  exists tail,
    create_pdf env [r]
    = Ret (SetFont (font env) 12 :: ShowPage :: SetFont (font env) 12 :: tail) /\
    contents tail = flat_map (record_contents env) [r].
Proof.
  intros env r.
  assert (H : page_usable_h < est_h (estimate env r)) by now vm_compute.
  split; [exact H | exact (tall_first_record_leaves_blank_page env r [] H)].
Defined.

(** ** Replacing characters *)

Lemma join_nil_sep (parts : list str) : join [] parts = concat parts.
Proof.
  induction parts as [| p rest IH]; [reflexivity |].
  cbn [join concat]. destruct rest as [| q rest].
  - cbn. now rewrite app_nil_r.
  - cbn [app]. now rewrite IH.
Qed.

Lemma join_cons (sep p : str) (rest : list str) :
  rest <> [] -> join sep (p :: rest) = p ++ sep ++ join sep rest.
Proof. destruct rest; [congruence | reflexivity]. Qed.

(** Replacing one character by a string works character by character. *)
Lemma replace_char_go (c : char) (new : str) (s : str) :
  forall cur,
    join new (split_go [c] 0 cur s)
    = rev cur ++ flat_map (fun x => if (x =? c)%N then new else [x]) s.
Proof.
  induction s as [| d s IH]; intro cur; cbn [split_go flat_map].
  - cbn. now rewrite app_nil_r.
  - cbn [startswith List.length Nat.sub]. rewrite N.eqb_sym.
    destruct (d =? c)%N; cbn [andb].
    + destruct (split_go_nonempty [c] s 0 []) as (x & more & E).
      rewrite join_cons by (rewrite E; discriminate).
      rewrite IH. reflexivity.
    + rewrite IH. cbn [rev]. now rewrite <- app_assoc.
Qed.

Lemma replace_char (s : str) (c : char) (new : str) :
  replace s [c] new = flat_map (fun x => if (x =? c)%N then new else [x]) s.
Proof. unfold replace, split. now rewrite replace_char_go. Qed.

Lemma remove_char (s : str) (c : char) :
  replace s [c] [] = filter (fun x => negb (x =? c)%N) s.
Proof.
  rewrite replace_char. induction s as [| d s IH]; [reflexivity |].
  cbn [flat_map filter]. rewrite IH. now destruct (d =? c)%N.
Qed.

Lemma filter_all (f : char -> bool) (s : str) :
  Forall (fun x => f x = true) s -> filter f s = s.
Proof.
  induction 1 as [| x s Hx _ IH]; [reflexivity |].
  cbn [filter]. now rewrite Hx, IH.
Qed.

Lemma not_in_filter_id (c : char) (s : str) :
  ~ In c s -> filter (fun x => negb (x =? c)%N) s = s.
Proof.
  intro H. apply filter_all. apply Forall_forall. intros x Hx.
  apply negb_true_iff. apply N.eqb_neq. intros ->. contradiction.
Qed.

Lemma not_in_removed (c : char) (s : str) :
  ~ In c (filter (fun x => negb (x =? c)%N) s).
Proof.
  intro H. apply filter_In in H. destruct H as [_ H].
  now rewrite N.eqb_refl in H.
Qed.

(** Removing a whitespace character from a trimmed string leaves it
    trimmed. *)
Lemma trimmed_remove_space (c : char) (s : str) :
  isspace c = true -> trimmed s ->
  trimmed (filter (fun x => negb (x =? c)%N) s).
Proof.
  intros Hc [H1 H2].
  assert (K : forall t : str,
             match t with [] => True | x :: _ => isspace x = false end ->
             match filter (fun x => negb (x =? c)%N) t with
             | [] => True
             | x :: _ => isspace x = false
             end).
  { intros t Ht. destruct t as [| x t]; [exact I |].
    assert (Hx : negb (x =? c)%N = true).
    { apply negb_true_iff, N.eqb_neq. intros ->. congruence. }
    cbn [filter]. rewrite Hx. exact Ht. }
  split; [now apply K |].
  rewrite <- filter_rev. now apply K.
Qed.

(** ** Flashcard cells *)

Lemma _gn_clean_str (v : value) :
  v <> VNone ->
  _gn_clean v =
  filter (fun x => negb (x =? IDEOGRAPHIC_SPACE)%N)
    (strip (filter (fun x => negb (x =? BOM)%N) (str_of v))).
Proof.
  intro H. destruct v; [congruence | | |]; unfold _gn_clean;
    now rewrite !remove_char.
Qed.

(** X14: [_gn_clean] returns a string without byte-order mark and
    without ideographic space, with no whitespace at either end;
    cleaning its result again changes nothing. *)
Theorem gn_clean_result (v : value) :
  ~ In BOM (_gn_clean v) /\
  ~ In IDEOGRAPHIC_SPACE (_gn_clean v) /\
  trimmed (_gn_clean v) /\
  _gn_clean (VStr (_gn_clean v)) = _gn_clean v.
Proof.
  assert (A : ~ In BOM (_gn_clean v) /\ ~ In IDEOGRAPHIC_SPACE (_gn_clean v) /\
              trimmed (_gn_clean v)).
  { destruct v as [| | s | t]; [cbn; unfold trimmed; cbn; tauto | | |];
      rewrite _gn_clean_str by discriminate;
      (split; [| split; [apply not_in_removed |
                         apply trimmed_remove_space;
                         [reflexivity | apply strip_trimmed]]]);
      intro H; apply filter_In in H; destruct H as [H _];
      apply in_strip in H; now apply not_in_removed in H. }
  destruct A as (H1 & H2 & H3). repeat split; try assumption; try apply H3.
  rewrite _gn_clean_str by discriminate. cbn [str_of].
  rewrite (not_in_filter_id BOM _ H1), (strip_of_trimmed _ H3).
  apply not_in_filter_id. exact H2.
Qed.

(** ** Newlines *)

Lemma sub_cr_newline_no_cr (t : str) :
  ~ In CR (sub_cr_newline t) /\ forall c, ~ In CR (sub_cr_newline (c :: t)).
Proof.
  induction t as [| d t [IH1 IH2]].
  - split; [intros [] |]. intro c. cbn.
    destruct (N.eqb_spec c CR) as [-> | Hne]; cbn.
    + intros [H | []]. discriminate.
    + intros [H | []]. congruence.
  - split; [apply IH2 |]. intro c. cbn [sub_cr_newline].
    destruct (N.eqb_spec c CR) as [-> | Hne].
    + destruct (d =? LF)%N; intros [H | H]; try discriminate;
        [now apply IH1 | now apply (IH2 d)].
    + intros [H | H]; [congruence | now apply (IH2 d)].
Qed.

Lemma sub_cr_newline_id (t : str) : ~ In CR t -> sub_cr_newline t = t.
Proof.
  induction t as [| c t IH]; intro H; [reflexivity |].
  cbn [sub_cr_newline].
  destruct (N.eqb_spec c CR) as [-> | _]; [exfalso; apply H; now left |].
  rewrite IH; [reflexivity |]. intro. apply H. now right.
Qed.

Lemma normalize_lf_eq (t : str) : normalize_lf t = sub_cr_newline t.
Proof. reflexivity. Qed.

(** X15: with the default line ending, [_gn_normalize_newlines] returns
    a text without carriage return, leaves a text without carriage
    return unchanged, and is therefore idempotent. *)
Theorem normalize_newlines_lf (t : str) :
  ~ In CR (_gn_normalize_newlines (VStr t) [LF]) /\
  (~ In CR t -> _gn_normalize_newlines (VStr t) [LF] = t) /\
  _gn_normalize_newlines (VStr (_gn_normalize_newlines (VStr t) [LF])) [LF]
  = _gn_normalize_newlines (VStr t) [LF].
Proof.
  change (_gn_normalize_newlines (VStr t) [LF]) with (sub_cr_newline t).
  pose proof (proj1 (sub_cr_newline_no_cr t)) as H.
  split; [exact H |]. split; [apply sub_cr_newline_id |].
  change (_gn_normalize_newlines (VStr (sub_cr_newline t)) [LF])
    with (sub_cr_newline (sub_cr_newline t)).
  now apply sub_cr_newline_id.
Qed.

Lemma normalize_newlines_lf_witness :
  ~ In CR (py "a b") /\ _gn_normalize_newlines (VStr (py "a b")) [LF] = py "a b".
Proof.
  assert (H : ~ In CR (py "a b")).
  { cbn. intro H. repeat (destruct H as [H | H]; [discriminate |]). exact H. }
  split; [exact H | exact (proj1 (proj2 (normalize_newlines_lf (py "a b"))) H)].
Defined.

Lemma sub_cr_newline_expand (u : str) :
  ~ In CR u ->
  sub_cr_newline (flat_map (fun x => if (x =? LF)%N then [CR; LF] else [x]) u) = u.
Proof.
  induction u as [| c u IH]; intro H; [reflexivity |].
  assert (Hu : ~ In CR u) by (intro; apply H; now right).
  cbn [flat_map]. destruct (N.eqb_spec c LF) as [-> | Hne].
  - cbn [app sub_cr_newline]. cbn. now rewrite IH.
  - cbn [app sub_cr_newline].
    destruct (N.eqb_spec c CR) as [-> | _]; [exfalso; apply H; now left |].
    now rewrite IH.
Qed.

(** X16: converting a text to CR LF line endings and then back to LF
    gives the same result as converting it to LF directly; converting
    to CR LF twice is the same as once. *)
Theorem normalize_newlines_round_trip (t : str) :
  _gn_normalize_newlines (VStr (_gn_normalize_newlines (VStr t) [CR; LF])) [LF]
  = _gn_normalize_newlines (VStr t) [LF] /\
  _gn_normalize_newlines (VStr (_gn_normalize_newlines (VStr t) [CR; LF])) [CR; LF]
  = _gn_normalize_newlines (VStr t) [CR; LF].
Proof.
  assert (E : forall u, _gn_normalize_newlines (VStr u) [CR; LF]
                        = flat_map (fun x => if (x =? LF)%N then [CR; LF] else [x])
                            (sub_cr_newline u)).
  { intro u. unfold _gn_normalize_newlines. cbn [str_of str_eqb].
    change (str_eqb [CR; LF] [CR; LF]) with true. cbn iota.
    apply replace_char. }
  assert (R : sub_cr_newline (_gn_normalize_newlines (VStr t) [CR; LF])
              = sub_cr_newline t).
  { rewrite E. apply sub_cr_newline_expand. apply sub_cr_newline_no_cr. }
  split.
  - exact R.
  - rewrite (E (_gn_normalize_newlines (VStr t) [CR; LF])), R. now rewrite E.
Qed.

Lemma in_join (x : char) (sep : str) (parts : list str) :
  In x (join sep parts) -> In x sep \/ exists p, In p parts /\ In x p.
Proof.
  induction parts as [| p rest IH]; [intros [] |].
  cbn [join]. destruct rest as [| q rest].
  - intro H. right. exists p. split; [now left | exact H].
  - intro H. apply in_app_or in H. destruct H as [H | H].
    + right. exists p. split; [now left | exact H].
    + apply in_app_or in H. destruct H as [H | H]; [now left |].
      destruct (IH H) as [? | (p' & Hp' & Hx)]; [now left |].
      right. exists p'. split; [now right | exact Hx].
Qed.

Lemma front_back_without_cr (series_str : series -> str -> str)
    (row : series)
    (numbering : str) (add_labels add_meta : bool) :
  let fb := _gn_make_front_back series_str row numbering add_labels add_meta in
  ~ In CR (fst fb) /\ ~ In CR (snd fb).
Proof.
  intro fb.
  assert (Hn : forall t, ~ In CR (normalize_lf t))
    by (intro t; apply sub_cr_newline_no_cr).
  assert (B : ~ In CR (snd fb)) by (subst fb; cbn [_gn_make_front_back snd]; apply Hn).
  assert (F : ~ In CR (fst fb)).
  { subst fb. unfold _gn_make_front_back. cbn [fst].
    set (labels := if str_eqb numbering ABC then _ else _).
    match goal with
    | |- context [flat_map ?f (combine labels ?c)] =>
        set (cl := flat_map f (combine labels c))
    end.
    assert (Hcl : forall ln, In ln cl -> ~ In CR ln).
    { intros ln Hln. subst cl. apply in_flat_map in Hln.
      destruct Hln as ([lab txt] & Hin & Hln). cbn [fst snd] in Hln.
      apply in_combine_l in Hin.
      destruct txt as [| c txt]; [destruct Hln |].
      destruct Hln as [<- | []]. intro H.
      apply in_app_or in H. destruct H as [H | H].
      - subst labels. destruct (str_eqb numbering ABC); cbn in Hin;
          repeat (destruct Hin as [<- | Hin];
                  [cbn in H; destruct H as [H | []]; discriminate |]);
          exact Hin.
      - apply in_app_or in H. destruct H as [H | H].
        + cbn in H. repeat (destruct H as [H | H]; [discriminate |]). exact H.
        + now apply Hn in H. }
    destruct cl as [| l0 cl'] eqn:Ecl; [apply Hn |].
    intro H. apply in_app_or in H. destruct H as [H | H]; [now apply Hn in H |].
    apply in_app_or in H. destruct H as [H | H].
    - cbn in H. repeat (destruct H as [H | H]; [discriminate |]). exact H.
    - apply in_join in H. destruct H as [H | (p & Hp & Hx)].
      + cbn in H. destruct H as [H | []]. discriminate.
      + now apply (Hcl p Hp). }
  split; assumption.
Qed.

(** X17: neither the Front nor the Back of a flashcard contains a
    carriage return, whatever the row holds and whatever the options,
    so the second normalisation pass of
    [dataframe_to_goodnotes_bytes] leaves both unchanged. *)
Theorem gn_front_back_no_cr (series_str : series -> str -> str)
    (row : series)
    (numbering : str) (add_labels add_meta : bool) :
  let fb := _gn_make_front_back series_str row numbering add_labels add_meta in
  ~ In CR (fst fb) /\ ~ In CR (snd fb) /\
  normalize_lf (fst fb) = fst fb /\ normalize_lf (snd fb) = snd fb.
Proof.
  intro fb.
  destruct (front_back_without_cr series_str row numbering add_labels add_meta)
    as [F B].
  fold fb in F, B.
  repeat split; try assumption; rewrite normalize_lf_eq;
    now apply sub_cr_newline_id.
Qed.

(** ** Output columns *)

Lemma str_eqb_eq (a b : str) : str_eqb a b = true <-> a = b.
Proof.
  revert b. induction a as [| x a IH]; intros [| y b]; cbn [str_eqb];
    try (split; [discriminate | congruence]); [tauto |].
  rewrite andb_true_iff, N.eqb_eq, IH.
  split; [intros [-> ->] | intro E; injection E]; auto.
Qed.

Lemma has_column_in (cols : list str) (c : str) :
  has_column cols c = true <-> In c cols.
Proof.
  induction cols as [| k cols IH]; cbn [has_column In]; [split; [discriminate | tauto] |].
  rewrite orb_true_iff, str_eqb_eq, IH. split; intros [H | H]; auto.
Qed.

Lemma ensure_fold (cs : list str) :
  forall df, exists added,
    columns
      (fold_left (fun out c => if has_column (columns out) c then out
                               else add_column out c (VStr [])) cs df)
    = columns df ++ added /\
    cells
      (fold_left (fun out c => if has_column (columns out) c then out
                               else add_column out c (VStr [])) cs df)
    = map (fun vals => vals ++ map (fun _ => VStr []) added) (cells df) /\
    (forall c, In c added -> In c cs /\ ~ In c (columns df)) /\
    (forall c, In c cs -> In c (columns df ++ added)).
Proof.
  induction cs as [| c cs IH]; intro df; cbn [fold_left].
  - exists []. rewrite app_nil_r. split; [reflexivity |]. split; [| split].
    + rewrite <- (map_id (cells df)) at 1. apply map_ext. intro.
      cbn. now rewrite app_nil_r.
    + intros c [].
    + intros c [].
  - destruct (has_column (columns df) c) eqn:E.
    + destruct (IH df) as (added & C & D & A & N). exists added.
      repeat split; auto.
      * right. now apply A.
      * now apply A.
      * intros c' [<- | H]; [| now apply N].
        apply in_or_app. left. now apply has_column_in.
    + destruct (IH (add_column df c (VStr []))) as (added & C & D & A & N).
      cbn [add_column columns cells] in *.
      exists (c :: added). rewrite C, D, <- app_assoc, map_map.
      split; [reflexivity |]. split; [| split].
      * apply map_ext. intro vals. now rewrite <- app_assoc.
      * intros c' [<- | H].
        -- split; [now left |]. intro H. apply has_column_in in H. congruence.
        -- destruct (A c' H) as [H1 H2]. split; [now right |].
           intro. apply H2. apply in_or_app. now left.
      * intros c' [<- | H].
        -- apply in_or_app. right. now left.
        -- specialize (N c' H). now rewrite <- app_assoc in N.
Qed.

Lemma ensure_fold_id (cs : list str) (df : DataFrame) :
  (forall c, In c cs -> In c (columns df)) ->
  fold_left (fun out c => if has_column (columns out) c then out
                          else add_column out c (VStr [])) cs df = df.
Proof.
  induction cs as [| c cs IH]; intro H; cbn [fold_left]; [reflexivity |].
  rewrite (proj2 (has_column_in (columns df) c)) by (apply H; now left).
  apply IH. intros c' Hc'. apply H. now right.
Qed.

(** X18: after [ensure_output_columns] each of the nine output columns
    exists; the frame keeps its columns, in order, and its cells; the
    columns added are output columns that were missing, filled with
    empty strings; and applying the function again changes nothing. *)
Theorem ensure_output_columns_spec (df : DataFrame) :
  (forall c, In c need -> In c (columns (ensure_output_columns df))) /\
  (exists added,
     columns (ensure_output_columns df) = columns df ++ added /\
     cells (ensure_output_columns df)
     = map (fun vals => vals ++ map (fun _ => VStr []) added) (cells df) /\
     forall c, In c added -> In c need /\ ~ In c (columns df)) /\
  ensure_output_columns (ensure_output_columns df) = ensure_output_columns df.
Proof.
  unfold ensure_output_columns.
  destruct (ensure_fold need df) as (added & C & D & A & N).
  assert (H : forall c, In c need ->
                In c (columns (fold_left
                  (fun out c => if has_column (columns out) c then out
                                else add_column out c (VStr [])) need df)))
    by (intros c Hc; rewrite C; now apply N).
  split; [exact H |]. split; [exists added; auto |].
  now apply ensure_fold_id.
Qed.

Lemma combine_app_same {A B} (l1 : list A) (l1' : list B) (l2 : list A)
    (l2' : list B) :
  List.length l1 = List.length l1' ->
  combine (l1 ++ l2) (l1' ++ l2') = combine l1 l1' ++ combine l2 l2'.
Proof.
  revert l1'. induction l1 as [| a l1 IH]; intros [| b l1'] H;
    try discriminate; [reflexivity |].
  cbn. f_equal. apply IH. now injection H.
Qed.

Lemma ensure_fold_nodup (cs : list str) :
  forall df, exists added,
    columns
      (fold_left (fun out c => if has_column (columns out) c then out
                               else add_column out c (VStr [])) cs df)
    = columns df ++ added /\
    NoDup added /\
    (forall c, In c added -> ~ In c (columns df)).
Proof.
  induction cs as [| c cs IH]; intro df; cbn [fold_left].
  - exists []. rewrite app_nil_r. split; [reflexivity |].
    split; [constructor | intros c []].
  - destruct (has_column (columns df) c) eqn:E; [apply IH |].
    destruct (IH (add_column df c (VStr []))) as (added & C & N & D).
    cbn [add_column columns] in *.
    exists (c :: added). rewrite C, <- app_assoc. split; [reflexivity |]. split.
    + constructor; [| exact N]. intro H. apply (D c H).
      apply in_or_app. right. now left.
    + intros c' [<- | H].
      * intro H. apply has_column_in in H. congruence.
      * intro H'. apply (D c' H). apply in_or_app. now left.
Qed.

Lemma cells_under_app (a b : series) (k : str) :
  cells_under (a ++ b) k = cells_under a k ++ cells_under b k.
Proof. unfold cells_under. now rewrite filter_app, map_app. Qed.

Lemma cells_under_absent (a : series) (k : str) :
  ~ In k (map fst a) -> cells_under a k = [].
Proof.
  unfold cells_under. induction a as [| [k' v] a IH]; intro H; [reflexivity |].
  cbn [filter fst]. destruct (str_eqb k k') eqn:E.
  - apply str_eqb_eq in E. subst. exfalso. apply H. now left.
  - apply IH. intro H'. apply H. now right.
Qed.

Lemma cells_under_added (added : list str) (d : value) (k : str) :
  NoDup added ->
  cells_under (map (fun c => (c, d)) added) k
  = if has_column added k then [d] else [].
Proof.
  induction 1 as [| c added Hc N IH]; [reflexivity |].
  unfold cells_under in *. cbn [map filter fst has_column].
  destruct (str_eqb k c) eqn:E; cbn [orb].
  - apply str_eqb_eq in E. subst c. cbn [map snd]. f_equal.
    replace (has_column added k) with false in IH; [exact IH |].
    symmetry. destruct (has_column added k) eqn:Hk; [| reflexivity].
    apply has_column_in in Hk. contradiction.
  - exact IH.
Qed.

Lemma combine_same_value {A B} (l : list A) (d : B) :
  combine l (map (fun _ => d) l) = map (fun c => (c, d)) l.
Proof. induction l as [| a l IH]; [reflexivity |]. cbn. now rewrite IH. Qed.

Lemma map_fst_combine_same {A B} (l : list A) (l' : list B) :
  List.length l' = List.length l -> map fst (combine l l') = l.
Proof.
  revert l'. induction l as [| a l IH]; intros [| b l'] H;
    try discriminate; [reflexivity |].
  cbn. f_equal. apply IH. now injection H.
Qed.

Lemma cells_under_length (a : series) (k : str) :
  List.length (cells_under a k)
  = List.length (filter (str_eqb k) (map fst a)).
Proof.
  unfold cells_under. rewrite length_map.
  induction a as [| [k' v] a IH]; [reflexivity |].
  cbn [filter map fst]. destruct (str_eqb k k'); cbn [List.length]; now rewrite IH.
Qed.

(** Looking up, with the default [""], a label that is not repeated
    does not see columns that were appended with [""] in every cell,
    and does not print a Series. *)
Lemma series_get_added_columns (s1 s2 : series -> str -> str) (a : series)
    (added : list str) (k : str) :
  NoDup added ->
  (forall c, In c added -> ~ In c (map fst a)) ->
  (List.length (filter (str_eqb k) (map fst a)) <= 1)%nat ->
  series_get s1 (a ++ map (fun c => (c, VStr [])) added) k (VStr [])
  = series_get s2 a k (VStr []).
Proof.
  intros N D L. unfold series_get.
  rewrite cells_under_app, (cells_under_added added (VStr []) k N).
  rewrite <- cells_under_length in L.
  destruct (has_column added k) eqn:E.
  - apply has_column_in in E.
    rewrite (cells_under_absent a k (D k E)). reflexivity.
  - rewrite app_nil_r.
    destruct (cells_under a k) as [| v [| v' vs]]; [reflexivity .. |].
    cbn [List.length] in L. lia.
Qed.

Lemma _gn_make_front_back_ext (s1 s2 : series -> str -> str)
    (row1 row2 : series) (numbering : str) (add_labels add_meta : bool) :
  (forall k, In k need ->
             series_get s1 row1 k (VStr []) = series_get s2 row2 k (VStr [])) ->
  _gn_make_front_back s1 row1 numbering add_labels add_meta
  = _gn_make_front_back s2 row2 numbering add_labels add_meta.
Proof.
  intro H. unfold _gn_make_front_back. cbn [seq map].
  assert (Hq := H k_mondaibun). assert (Ha := H k_seikai).
  assert (Hs := H k_kamokubunrui). assert (Hl := H k_link_url).
  assert (Hc : forall i, (1 <= i <= 5)%nat ->
            series_get s1 row1 (k_sentakushi ++ digit_str i) (VStr [])
            = series_get s2 row2 (k_sentakushi ++ digit_str i) (VStr [])).
  { intros i Hi. apply H. unfold need. apply in_or_app. right.
    apply in_or_app. left. apply in_map_iff. exists i. split; [reflexivity |].
    apply in_seq. lia. }
  rewrite Hq, Ha, Hs, Hl by (unfold need; cbn [app map seq In]; tauto).
  rewrite (Hc 1%nat), (Hc 2%nat), (Hc 3%nat), (Hc 4%nat), (Hc 5%nat) by lia.
  reflexivity.
Qed.

Lemma enumerate_map {A B} (f : A -> B) (l : list A) :
  enumerate (map f l) = map (fun ia => (fst ia, f (snd ia))) (enumerate l).
Proof.
  unfold enumerate. rewrite length_map. generalize 0%nat.
  induction l as [| a l IH]; intro n; [reflexivity |].
  cbn [List.length seq map combine fst snd]. now rewrite IH.
Qed.

(** X19: for a frame with one cell per column in every row, in which
    none of the nine labels the export reads is repeated (other labels
    may be), the cells that [dataframe_to_goodnotes_bytes] hands to the
    CSV writer are the Front and Back of each row of the frame as it
    is: adding the missing output columns and normalising the newlines
    a second time change nothing. *)
Theorem goodnotes_cells_direct (series_str : nat -> series -> str -> str)
    (df : DataFrame) (numbering : str) (add_labels add_meta : bool) :
  well_formed df ->
  unrepeated df need = true ->
  goodnotes_cells series_str df numbering add_labels add_meta
  = map (fun ir =>
           _gn_make_front_back (series_str (fst ir)) (snd ir)
             numbering add_labels add_meta)
      (enumerate (iterrows df)).
Proof.
  intros W U. unfold goodnotes_cells, iterrows.
  destruct (ensure_fold need df) as (added & C & D & _).
  destruct (ensure_fold_nodup need df) as (added' & C' & Nd & Dj).
  fold (ensure_output_columns df) in C, D, C'.
  assert (added' = added) by (rewrite C in C'; now apply app_inv_head in C').
  subst added'.
  rewrite C, D, map_map, !enumerate_map, !map_map.
  apply map_ext_in. intros [i vals] Hv. cbn [fst snd].
  apply in_combine_r in Hv.
  unfold well_formed in W. rewrite Forall_forall in W.
  unfold unrepeated in U. rewrite forallb_forall in U.
  rewrite combine_app_same by (symmetry; now apply W).
  rewrite combine_same_value.
  rewrite (_gn_make_front_back_ext _ (series_str i) _
             (combine (columns df) vals)).
  - destruct (_gn_make_front_back (series_str i) (combine (columns df) vals)
                numbering add_labels add_meta) as [f b] eqn:E.
    pose proof (front_back_without_cr (series_str i)
                  (combine (columns df) vals)
                  numbering add_labels add_meta) as K.
    rewrite E in K. cbn [fst snd] in K. destruct K as [Kf Kb].
    unfold normalize_lf in *. change (_gn_normalize_newlines (VStr f) [LF])
      with (sub_cr_newline f).
    change (_gn_normalize_newlines (VStr b) [LF]) with (sub_cr_newline b).
    now rewrite (sub_cr_newline_id f Kf), (sub_cr_newline_id b Kb).
  - intros k Hk.
    assert (Hf : map fst (combine (columns df) vals) = columns df)
      by (apply map_fst_combine_same; now apply W).
    apply series_get_added_columns; [exact Nd | |].
    + intros c Hc. rewrite Hf. now apply Dj.
    + rewrite Hf. apply Nat.leb_le. now apply U.
Qed.

Lemma goodnotes_cells_direct_witness :
  well_formed annotated_frame /\
  unrepeated annotated_frame need = true /\
  goodnotes_cells sample_series_str annotated_frame ABC true false
  = map (fun ir =>
           _gn_make_front_back (sample_series_str (fst ir)) (snd ir)
             ABC true false)
      (enumerate (iterrows annotated_frame)).
Proof.
  assert (W : well_formed annotated_frame) by (repeat constructor).
  assert (U : unrepeated annotated_frame need = true) by reflexivity.
  split; [exact W |]. split; [exact U |].
  exact (goodnotes_cells_direct sample_series_str annotated_frame ABC true
           false W U).
Defined.

(** ** Text export and PDF export *)

Lemma wl_concat (env : World) (prefix value : str) :
  concat (wl env prefix value) = prefix ++ value.
Proof.
  unfold wl, wrapped_lines, wrap_text, wrap_text_of.
  destruct (prefix ++ value) as [| c s] eqn:E; [reflexivity |].
  destruct (wrap_loop (stringWidth env) usable_width (font env) 12 (c :: s) [] [])
    as [lines buf] eqn:W.
  apply wrap_loop_concat in W. cbn [concat app] in W.
  destruct buf as [| b buf].
  - now rewrite app_nil_r in W.
  - rewrite concat_app. cbn [concat]. now rewrite app_nil_r.
Qed.

Lemma fold_choice_parts (r : row) (l : list nat) :
  forall parts,
    fold_left
      (fun parts i =>
         match safe_get r [k_sentakushi ++ digit_str i] with
         | [] => parts
         | choice => parts ++ [k_sentakushi ++ digit_str i ++ colon_sp ++ choice]
         end) l parts
    = parts ++
      map (fun iv => k_sentakushi ++ digit_str (fst iv) ++ colon_sp ++ snd iv)
        (flat_map
           (fun i =>
              match safe_get r [k_sentakushi ++ digit_str i] with
              | [] => []
              | v => [(i, v)]
              end) l).
Proof.
  induction l as [| i l IH]; intro parts; cbn [fold_left flat_map].
  - cbn. now rewrite app_nil_r.
  - rewrite IH. destruct (safe_get r [k_sentakushi ++ digit_str i]) as [| c v].
    + reflexivity.
    + cbn [app map fst snd]. now rewrite <- app_assoc.
Qed.

(** X20: the plain-text export and the PDF export show the same text:
    for every record, joining the wrapped PDF lines of the question,
    of each choice, of the answer and of the category gives, in order,
    the lines of the text export; the text export then adds the image
    link line when the record has a link. *)
Theorem text_export_matches_pdf (env : World) (r : row) :
  let pl := estimate env r in
  format_record_parts r =
  map (@concat char)
    (q_lines pl :: choice_lines_list pl ++ [ans_lines pl; cat_lines pl]) ++
  match safe_get r [k_link_url; k_gazou_url; k_gazou_link; k_link; k_gazou_Link] with
  | [] => []
  | link => [label_gazou_link ++ convert_google_drive_link link ++ pdf_note]
  end.
Proof.
  intro pl. destruct (estimate_lines env r) as (Eq & Ec & Ea & Ek & _).
  fold pl in Eq, Ec, Ea, Ek. rewrite Eq, Ec, Ea, Ek.
  unfold format_record_parts. rewrite fold_choice_parts. fold (choices r).
  cbn [map]. rewrite map_app, map_map. cbn [map].
  rewrite !wl_concat.
  assert (E : map (fun iv : nat * str =>
                     concat (wl env (k_sentakushi ++ digit_str (fst iv) ++ colon_sp)
                               (snd iv))) (choices r)
              = map (fun iv => k_sentakushi ++ digit_str (fst iv) ++ colon_sp ++ snd iv)
                  (choices r)).
  { apply map_ext. intro iv. rewrite wl_concat. now rewrite <- !app_assoc. }
  rewrite E, <- !app_assoc.
  destruct (safe_get r [k_link_url; k_gazou_url; k_gazou_link; k_link; k_gazou_Link]);
    cbn [app]; rewrite <- ?app_assoc; cbn [app]; try rewrite app_nil_r; reflexivity.
Qed.

(** X21: the text export reads the link from five columns, the PDF
    export from four: for a row whose only link is in the column
    "画像Link", the text export prints the image link line (with its
    note that the image is shown in the PDF), while the PDF export
    sees no link and shows neither image nor fallback message. *)
Theorem image_Link_column_ignored_by_pdf (env : World) (r : row) :
  Forall (fun k => cell_text r k = [])
    [k_link_url; k_gazou_url; k_gazou_link; k_link] ->
  cell_text r k_gazou_Link <> [] ->
  link_raw (estimate env r) = [] /\
  pil (estimate env r) = None /\
  image_slot_contents env (estimate env r) = [] /\
  In (label_gazou_link
      ++ convert_google_drive_link (cell_text r k_gazou_Link) ++ pdf_note)
     (format_record_parts r).
Proof.
  intros Hb Hl.
  inversion Hb as [| ? ? E1 Hb1]; subst. inversion Hb1 as [| ? ? E2 Hb2]; subst.
  inversion Hb2 as [| ? ? E3 Hb3]; subst. inversion Hb3 as [| ? ? E4 _]; subst.
  assert (L : link_raw (estimate env r) = []).
  { destruct (estimate_lines env r) as (_ & _ & _ & _ & ->).
    now rewrite !safe_get_cons, E1, E2, E3, E4. }
  assert (P : pil (estimate env r) = None).
  { destruct (estimate_plan env r) as [-> _]. now rewrite L. }
  split; [exact L |]. split; [exact P |]. split.
  - unfold image_slot_contents. now rewrite P, L.
  - unfold format_record_parts.
    rewrite !(safe_get_cons r k_link_url), !(safe_get_cons r k_gazou_url),
      !(safe_get_cons r k_gazou_link), !(safe_get_cons r k_link),
      !(safe_get_cons r k_gazou_Link), E1, E2, E3, E4.
    destruct (cell_text r k_gazou_Link) as [| c l]; [congruence |].
    apply in_or_app. right. now left.
Qed.

Lemma image_Link_column_ignored_by_pdf_witness :
  let r := [(k_mondaibun, Some (py "Q1")); (k_link_url, Some (py " "));
            (k_gazou_Link, Some (py "https://example.com/a.png"))] in
  Forall (fun k => cell_text r k = [])
    [k_link_url; k_gazou_url; k_gazou_link; k_link] /\
  cell_text r k_gazou_Link <> [] /\
  image_slot_contents offline (estimate offline r) = [].
Proof.
  intro r.
  assert (Hb : Forall (fun k => cell_text r k = [])
                 [k_link_url; k_gazou_url; k_gazou_link; k_link])
    by (repeat constructor).
  assert (Hl : cell_text r k_gazou_Link <> []) by (vm_compute; discriminate).
  split; [exact Hb |]. split; [exact Hl |].
  exact (proj1 (proj2 (proj2 (image_Link_column_ignored_by_pdf offline r Hb Hl)))).
Defined.

(** ** Column names *)

Lemma nodup_app_disjoint {A} (l1 l2 : list A) (x : A) :
  NoDup (l1 ++ l2) -> In x l1 -> In x l2 -> False.
Proof.
  induction l1 as [| a l1 IH]; cbn [app]; [intros _ [] |].
  intros N [<- | H1] H2; inversion N as [| ? ? Hn N']; subst.
  - apply Hn. apply in_or_app. now right.
  - now apply IH.
Qed.

Lemma first_present_some (cands colset : list str) (c : str) :
  first_present cands colset = Some c -> In c cands /\ In c colset.
Proof.
  induction cands as [| k cands IH]; cbn [first_present]; [discriminate |].
  destruct (has_column colset k) eqn:E.
  - intro H. injection H as <-. split; [now left | now apply has_column_in].
  - intro H. destruct (IH H). split; [now right | assumption].
Qed.

Lemma first_present_none (cands colset : list str) :
  first_present cands colset = None ->
  forall c, In c cands -> ~ In c colset.
Proof.
  induction cands as [| k cands IH]; cbn [first_present]; [intros _ c [] |].
  destruct (has_column colset k) eqn:E; [discriminate |].
  intros H c [<- | Hc].
  - intro Hin. apply has_column_in in Hin. congruence.
  - now apply IH.
Qed.

Lemma rename_label_in (cols : list str) (c canon x : str) :
  In x (rename_label cols c canon) <->
  (x = canon /\ In c cols) \/ (In x cols /\ x <> c).
Proof.
  unfold rename_label. rewrite in_map_iff. split.
  - intros (k & E & Hk). destruct (str_eqb k c) eqn:Ek.
    + apply str_eqb_eq in Ek. subst. now left.
    + right. subst. split; [assumption |]. intros ->.
      rewrite (proj2 (str_eqb_eq c c) eq_refl) in Ek. discriminate.
  - intros [[-> Hc] | [Hx Hne]].
    + exists c. now rewrite (proj2 (str_eqb_eq c c) eq_refl).
    + exists x. split; [| assumption].
      destruct (str_eqb x c) eqn:E; [apply str_eqb_eq in E; congruence | reflexivity].
Qed.

Lemma in_dec_columns (cols : list str) (x : str) : In x cols \/ ~ In x cols.
Proof.
  destruct (has_column cols x) eqn:E.
  - left. now apply has_column_in.
  - right. intro H. apply has_column_in in H. congruence.
Qed.

Lemma renamed_by_more (tbl more : list (str * list str)) (old new : str) :
  renamed_by tbl old new -> renamed_by (tbl ++ more) old new.
Proof.
  intros [-> | (e & He & Ho & ->)]; [now left | right].
  exists e. split; [apply in_or_app; now left | auto].
Qed.

(** The loop over the alias table, with the facts it keeps. *)
Lemma alias_fold (rem : list (str * list str)) :
  forall done cols0 cols colset,
    NoDup (concat (map names_of (done ++ rem))) ->
    Forall2 (renamed_by done) cols0 cols ->
    incl cols0 colset -> incl cols colset ->
    (forall x, In x colset -> ~ In x cols ->
               ~ In x (concat (map names_of rem))) ->
    (forall e, In e done ->
               (In (fst e) cols0 \/ exists c, In c (snd e) /\ In c cols0) ->
               In (fst e) cols) ->
    Forall2 (renamed_by (done ++ rem)) cols0
      (fst (fold_left alias_step rem (cols, colset))) /\
    (forall e, In e (done ++ rem) ->
               (In (fst e) cols0 \/ exists c, In c (snd e) /\ In c cols0) ->
               In (fst e) (fst (fold_left alias_step rem (cols, colset)))).
Proof.
  induction rem as [| e rem IH]; intros done cols0 cols colset N F B C D E.
  - cbn [fold_left fst]. rewrite app_nil_r. auto.
  - assert (N' : NoDup (concat (map names_of done)
                        ++ names_of e ++ concat (map names_of rem)))
      by (now rewrite map_app, concat_app in N).
    assert (Ne_rem : forall x, In x (names_of e) ->
                               ~ In x (concat (map names_of rem))).
    { intros x H1 H2. apply NoDup_app_remove_l in N'.
      exact (nodup_app_disjoint _ _ x N' H1 H2). }
    assert (Ne_done : forall x, In x (names_of e) ->
                                ~ In x (concat (map names_of done))).
    { intros x H1 H2. apply (nodup_app_disjoint _ _ x N' H2).
      apply in_or_app. now left. }
    assert (Drem : forall x, ~ In x (concat (map names_of (e :: rem))) ->
                             ~ In x (concat (map names_of rem))).
    { intros x H H'. apply H. cbn [map concat]. apply in_or_app. now right. }
    assert (Dhere : forall x, In x (names_of e) -> In x colset -> In x cols).
    { intros x Hx Hc. destruct (in_dec_columns cols x) as [? | Hn]; [assumption |].
      exfalso. apply (D x Hc Hn). cbn [map concat]. apply in_or_app. now left. }
    assert (Step : forall cols1 colset1,
               Forall2 (renamed_by (done ++ [e])) cols0 cols1 ->
               incl cols0 colset1 -> incl cols1 colset1 ->
               (forall x, In x colset1 -> ~ In x cols1 ->
                          ~ In x (concat (map names_of rem))) ->
               (forall e', In e' (done ++ [e]) ->
                           (In (fst e') cols0 \/
                            exists c, In c (snd e') /\ In c cols0) ->
                           In (fst e') cols1) ->
               Forall2 (renamed_by (done ++ e :: rem)) cols0
                 (fst (fold_left alias_step rem (cols1, colset1))) /\
               (forall e', In e' (done ++ e :: rem) ->
                           (In (fst e') cols0 \/
                            exists c, In c (snd e') /\ In c cols0) ->
                           In (fst e')
                              (fst (fold_left alias_step rem (cols1, colset1))))).
    { intros cols1 colset1 F1 B1 C1 D1 E1.
      replace (done ++ e :: rem) with ((done ++ [e]) ++ rem)
        by (now rewrite <- app_assoc).
      apply IH; auto. now rewrite <- app_assoc. }
    assert (Fsame : Forall2 (renamed_by (done ++ [e])) cols0 cols).
    { eapply Forall2_impl; [| exact F]. intros. now apply renamed_by_more. }
    cbn [fold_left].
    assert (Hst : alias_step (cols, colset) e =
                  if has_column colset (fst e) then (cols, colset)
                  else match first_present (snd e) colset with
                       | Some c => (rename_label cols c (fst e), fst e :: colset)
                       | None => (cols, colset)
                       end) by reflexivity.
    rewrite Hst. clear Hst.
    destruct (has_column colset (fst e)) eqn:Hcanon.
    + (* the canonical name is already there *)
      apply Step; auto.
      intros e' He' Hp. apply in_app_or in He'. destruct He' as [He' | [<- | []]].
      * now apply E.
      * apply Dhere; [now left | now apply has_column_in].
    + destruct (first_present (snd e) colset) as [c |] eqn:Hfp.
      * (* the alias [c] is renamed *)
        destruct (first_present_some _ _ _ Hfp) as [Hc1 Hc2].
        assert (Hc3 : In c cols) by (apply Dhere; [now right | assumption]).
        apply Step.
        -- clear - F Hc1 Ne_done.
           induction F as [| old new l l' R _ IHF]; cbn [rename_label map];
             constructor; [| exact IHF].
           destruct (str_eqb new c) eqn:Enew.
           ++ apply str_eqb_eq in Enew. subst new.
              destruct R as [-> | (e' & He' & _ & Ec)].
              ** right. exists e. split; [apply in_or_app; right; now left | auto].
              ** exfalso. apply (Ne_done c); [now right |].
                 apply in_concat. exists (names_of e').
                 split; [now apply in_map | rewrite Ec; now left].
           ++ now apply renamed_by_more.
        -- intros x Hx. right. now apply B.
        -- intros x Hx. apply rename_label_in in Hx.
           destruct Hx as [[-> _] | [Hx _]]; [now left | right; now apply C].
        -- intros x Hx Hn. destruct Hx as [<- | Hx].
           ++ exfalso. apply Hn. apply rename_label_in. now left.
           ++ destruct (in_dec_columns cols x) as [Hin | Hout].
              ** assert (x = c).
                 { destruct (str_eqb x c) eqn:Ex; [now apply str_eqb_eq |].
                   exfalso. apply Hn. apply rename_label_in. right.
                   split; [assumption |]. intros ->.
                   rewrite (proj2 (str_eqb_eq c c) eq_refl) in Ex. discriminate. }
                 subst x. apply Ne_rem. now right.
              ** apply Drem. now apply D.
        -- intros e' He' Hp. apply in_app_or in He'.
           destruct He' as [He' | [<- | []]].
           ++ apply rename_label_in. right. split; [now apply E |].
              intros Ec. apply (Ne_done c); [now right |].
              apply in_concat. exists (names_of e').
              split; [now apply in_map | rewrite <- Ec; now left].
           ++ apply rename_label_in. now left.
      * (* neither the name nor an alias is there *)
        apply Step; auto.
        intros e' He' Hp. apply in_app_or in He'. destruct He' as [He' | [<- | []]].
        -- now apply E.
        -- exfalso. destruct Hp as [Hp | (c & Hc1 & Hc2)].
           ++ apply B in Hp. apply has_column_in in Hp. congruence.
           ++ apply (first_present_none _ _ Hfp c Hc1). now apply B.
Qed.

Lemma alias_names_nodup : NoDup (concat (map names_of alias)).
Proof.
  cbv [alias names_of concat map fst snd app k_mondaibun k_setsumon k_mondai
       k_honbun k_sentakushi k_seikai k_kaitou k_kotae k_kamokubunrui k_bunrui
       k_kamoku k_link_url k_gazou_url k_gazou_link k_link k_gazou_Link fw py
       N_of_ascii N_of_digits N.add N.mul].
  repeat (constructor;
          [intro H; repeat (destruct H as [H | H]; [discriminate H |]); exact H |]).
  constructor.
Qed.

Lemma normalize_labels_spec (labels : list str) :
  Forall2 (renamed_by alias) (map _clean labels) (normalize_labels labels) /\
  (forall e, In e alias ->
             (In (fst e) (map _clean labels) \/
              exists c, In c (snd e) /\ In c (map _clean labels)) ->
             In (fst e) (normalize_labels labels)).
Proof.
  unfold normalize_labels.
  apply (alias_fold alias [] (map _clean labels) (map _clean labels)
           (map _clean labels)).
  - exact alias_names_nodup.
  - induction (map _clean labels); constructor; [now left | assumption].
  - apply incl_refl.
  - apply incl_refl.
  - intros x H1 H2. contradiction.
  - intros e [].
Qed.

Lemma Forall2_map_left {A B C} (f : A -> B) (R : B -> C -> Prop) (l : list A) :
  forall l', Forall2 R (map f l) l' -> Forall2 (fun a c => R (f a) c) l l'.
Proof.
  induction l as [| a l IH]; intros l' H; inversion H; subst; constructor; auto.
Qed.

(** X22: [normalize_columns] leaves the cells and the number and order
    of the columns unchanged; each label is either its cleaned form
    (byte-order mark, spaces, tabs and line breaks removed) or, when
    the cleaned form is an alias in the table, the canonical name of
    that alias. *)
Theorem normalize_columns_labels (df : DataFrame) :
  cells (normalize_columns df) = cells df /\
  List.length (columns (normalize_columns df)) = List.length (columns df) /\
  Forall2 (fun old new => renamed_by alias (_clean old) new)
    (columns df) (columns (normalize_columns df)) /\
  (forall l, ~ In BOM (_clean l) /\ Forall (fun c => blank_class c = false) (_clean l)).
Proof.
  destruct (normalize_labels_spec (columns df)) as [F _].
  apply Forall2_map_left in F.
  split; [reflexivity |]. split; [symmetry; exact (Forall2_length F) |].
  split; [exact F |]. intro l. unfold _clean. rewrite remove_char. split.
  - intro H. apply filter_In in H. destruct H as [H _].
    now apply not_in_removed in H.
  - apply Forall_forall. intros c H. apply filter_In in H. destruct H as [_ H].
    now apply negb_true_iff in H.
Qed.

(** X23: if a column, once cleaned, carries the canonical name of an
    alias entry or one of its aliases, the frame returned by
    [normalize_columns] has a column with the canonical name. *)
Theorem normalize_columns_canonical (df : DataFrame) (e : str * list str)
    (label : str) :
  In e alias ->
  In label (columns df) ->
  In (_clean label) (names_of e) ->
  In (fst e) (columns (normalize_columns df)).
Proof.
  intros He Hl Hn. destruct (normalize_labels_spec (columns df)) as [_ G].
  apply (G e He). destruct Hn as [E | Hn].
  - left. rewrite E. now apply in_map.
  - right. exists (_clean label). split; [assumption | now apply in_map].
Qed.

Lemma normalize_columns_canonical_witness :
  let df := mkDataFrame [py " answer "; k_mondai] [] in
  let e := (k_seikai, [k_kaitou; k_kotae; py "ans"; py "answer"]) in
  In e alias /\ In (py " answer ") (columns df) /\
  In (_clean (py " answer ")) (names_of e) /\
  In k_seikai (columns (normalize_columns df)).
Proof.
  intros df e.
  assert (He : In e alias) by (do 6 right; now left).
  assert (Hl : In (py " answer ") (columns df)) by now left.
  assert (Hn : In (_clean (py " answer ")) (names_of e)) by (do 4 right; now left).
  split; [exact He |]. split; [exact Hl |]. split; [exact Hn |].
  exact (normalize_columns_canonical df e (py " answer ") He Hl Hn).
Defined.
